(** * inefice-core: change translation and subscription routing

    A shallow embedding of [index.js]: the codec configuration, [withPath],
    the [changeTypes] table, [SubscriberState], [MapOfLists] and the engine
    built by [module.exports] (the observer callback, [link], [unlink]).

    Modelling conventions.
    - A JS object used as a map ([MapOfLists.map]) is a [gmap] of its own
      properties.  It is a plain object, so a name that every object
      inherits from [Object.prototype] also reads as a member, one that is
      not an array: [MapOfLists.with_] returns it, and the [push], [filter]
      or [forEach] that follows throws a TypeError.
    - The observed root object [data] is an association list of the
      properties its user has set; reading it also finds the members the
      observable carries ([observe], ...) and the inherited ones.
    - What the source does not fix of its surroundings (the members of the
      observable, of arrays, strings, numbers, booleans and functions) is
      the interface [Host].
    - [transport.send] appends to the log [sent] and does not call back into
      the engine; the transport and the codec are interfaces ([Transport],
      [Codec]).
    - A mutation of the observed object is an event [Mutate data' changes]:
      the object now reads [data'] and the observer is called, at once, with
      the change records.
    - Exceptions are results: [Throw] carries the error, and the state
      reached before the throw is kept. *)

From stdpp Require Import base option list strings pretty gmap fin_maps.

Local Set Warnings "-register-all".

(** ** JavaScript values *)

(** Numbers are the integers.  Strings are compared and passed on; what a
    string answers to a property name is the host's affair. *)
Inductive jsval :=
| VUndefined
| VNull
| VBool (b : bool)
| VNum (n : Z)
| VStr (s : string)
| VFun
| VArr (items : list jsval)
| VObj (fields : list (string * jsval)).

Inductive js_type :=
| TUndefined | TBoolean | TNumber | TString | TObject | TFunction.

Definition typeof (v : jsval) : js_type :=
  match v with
  | VUndefined => TUndefined
  | VNull => TObject
  | VBool _ => TBoolean
  | VNum _ => TNumber
  | VStr _ => TString
  | VFun => TFunction
  | VArr _ => TObject
  | VObj _ => TObject
  end.

Global Instance js_type_eq_dec : EqDecision js_type.
Proof. solve_decision. Defined.

(** A path segment is a field name or an array index. *)
Inductive segment :=
| Field (name : string)
| Index (i : N).

Global Instance segment_eq_dec : EqDecision segment.
Proof. solve_decision. Defined.

(** [path[0]] and friends: a segment, or [undefined] ([None]). *)
Abbreviation jskey := (option segment).

(** The coercion JS applies to a value used as a property name. *)
Definition to_property_key (k : jskey) : string :=
  match k with
  | None => "undefined"
  | Some (Field s) => s
  | Some (Index i) => pretty i
  end.

(** Own properties of an object, first binding wins. *)
Fixpoint own_property (name : string) (fields : list (string * jsval))
  : option jsval :=
  match fields with
  | [] => None
  | (k, v) :: rest => if decide (k = name) then Some v else own_property name rest
  end.

(** The own properties of [Object.prototype]: eleven functions, and
    [__proto__], which on the prototype itself reads [null]. *)
Definition Object_prototype : list (string * jsval) :=
  [("constructor", VFun); ("__defineGetter__", VFun);
   ("__defineSetter__", VFun); ("hasOwnProperty", VFun);
   ("__lookupGetter__", VFun); ("__lookupSetter__", VFun);
   ("isPrototypeOf", VFun); ("propertyIsEnumerable", VFun);
   ("toString", VFun); ("valueOf", VFun); ("toLocaleString", VFun);
   ("__proto__", VNull)].

(** The names every plain object inherits. *)
Definition inherited (name : string) : bool :=
  bool_decide (is_Some (own_property name Object_prototype)).

(** What a plain object reads under a name it does not own: the member of
    [Object.prototype], which for [__proto__] is the prototype itself. *)
Definition inherited_member (name : string) : option jsval :=
  if decide (name = "__proto__") then Some (VObj Object_prototype)
  else own_property name Object_prototype.

(** [o[name]] for a plain object with the given own properties. *)
Definition object_get (fields : list (string * jsval)) (name : string) : jsval :=
  match own_property name fields with
  | Some v => v
  | None => default VUndefined (inherited_member name)
  end.

(** The array position named by a property key, if it names one in range. *)
Definition array_index (name : string) (len : nat) : option nat :=
  list_find (λ i, pretty i = name) (seq 0 len) ≫= λ p, Some (snd p).

Inductive exn :=
| NoSuchKey (key : string)
| TypeError.

Inductive result (A : Type) :=
| Ok (a : A)
| Throw (e : exn).
Arguments Ok {A} a.
Arguments Throw {A} e.

Global Instance exn_eq_dec : EqDecision exn.
Proof. solve_decision. Defined.

Global Instance result_eq_dec {A} `{EqDecision A} : EqDecision (result A).
Proof. solve_decision. Defined.

(** ** The host *)

(** What the source leaves to its surroundings.  The observable root
    carries members of its own besides the keys its user sets; the source
    calls one of them, [data.observe].  Arrays, strings, numbers, booleans
    and functions answer to members that depend on the runtime;
    [builtin_member v name] is what [v[name]] reads there, [None] for
    [undefined].  No array has a member under an index name. *)
Class Host := {
  observable_members : list string;
  observable_has_observe : "observe" ∈ observable_members;
  builtin_member : jsval → string → option jsval;
  builtin_member_no_index :
    ∀ items (n : N), builtin_member (VArr items) (pretty n) = None;
}.

Section Reading.
Context {H : Host}.

(** [cursor[segment]].  Reading a property of [undefined] or [null] throws;
    a missing property reads as [undefined]. *)
Definition get_property (cursor : jsval) (seg : segment) : result jsval :=
  let name := to_property_key (Some seg) in
  match cursor with
  | VUndefined | VNull => Throw TypeError
  | VObj fields => Ok (object_get fields name)
  | VArr items =>
      if decide (name = "length") then Ok (VNum (Z.of_nat (length items)))
      else match array_index name (length items) with
           | Some i => Ok (default VUndefined (items !! i))
           | None => Ok (default VUndefined (builtin_member cursor name))
           end
  | VStr _ | VBool _ | VNum _ | VFun =>
      Ok (default VUndefined (builtin_member cursor name))
  end.

(** [withPath(d, path)]: the guard [typeof segment !== undefined] compares a
    string with [undefined] and is always true, so every segment is followed. *)
Fixpoint withPath (d : jsval) (path : list segment) : result jsval :=
  match path with
  | [] => Ok d
  | seg :: rest =>
      match get_property d seg with
      | Ok cursor => withPath cursor rest
      | Throw e => Throw e
      end
  end.

(** The observable root as a value: the properties its user has set,
    followed by the observable's own members, which are functions. *)
Definition observable (data : list (string * jsval)) : jsval :=
  VObj (data ++ ((λ name, (name, VFun)) <$> observable_members)).

(** [data[key]] *)
Definition data_get (data : list (string * jsval)) (key : string) : jsval :=
  object_get (data ++ ((λ name, (name, VFun)) <$> observable_members)) key.
End Reading.

(** The root object table: the properties set on [data]. *)
Abbreviation table := (list (string * jsval)).
(** ** The codec *)

(** [sejr] is an external package.  The engine only calls [describe] and
    [realize] on it. *)
Class Codec := {
  wire : Type;
  serialize : jsval → wire;
  deserialize : wire → jsval;
}.

(** What the codec contract promises of a round trip: members without a wire
    representation come back as [undefined]. *)
Fixpoint scrub (v : jsval) : jsval :=
  match v with
  | VFun => VUndefined
  | VArr items => VArr (map scrub items)
  | VObj fields => VObj (map (λ kv, (fst kv, scrub (snd kv))) fields)
  | _ => v
  end.

Class CodecContract (C : Codec) : Prop :=
  codec_round_trip : ∀ v, deserialize (serialize v) = scrub v.

(** Modelled from the spec: the wire format of the sejr package, which is not
    part of the repository.  The configuration in [index.js] gives every
    value whose [typeof] is not boolean, number, string or object the client
    type ['undefined'], described as [undefined]; the spec's codec contract
    says such members become a marker that decodes to undefined, nested
    members included, and that everything else round-trips exactly. *)
Inductive sejr_wire :=
| WUnrepresentable
| WNull
| WBool (b : bool)
| WNum (n : Z)
| WStr (s : string)
| WArr (items : list sejr_wire)
| WObj (fields : list (string * sejr_wire)).

Fixpoint sejr_describe (v : jsval) : sejr_wire :=
  match v with
  | VUndefined | VFun => WUnrepresentable
  | VNull => WNull
  | VBool b => WBool b
  | VNum n => WNum n
  | VStr s => WStr s
  | VArr items => WArr (map sejr_describe items)
  | VObj fields => WObj (map (λ kv, (fst kv, sejr_describe (snd kv))) fields)
  end.

Fixpoint sejr_realize (w : sejr_wire) : jsval :=
  match w with
  | WUnrepresentable => VUndefined
  | WNull => VNull
  | WBool b => VBool b
  | WNum n => VNum n
  | WStr s => VStr s
  | WArr items => VArr (map sejr_realize items)
  | WObj fields => VObj (map (λ kv, (fst kv, sejr_realize (snd kv))) fields)
  end.

Definition sejr : Codec :=
  {| wire := sejr_wire; serialize := sejr_describe; deserialize := sejr_realize |}.

(** ** Change records and protocol messages *)

Inductive change_type :=
| ct_insert | ct_update | ct_delete | ct_shuffle | ct_reverse.

Global Instance change_type_eq_dec : EqDecision change_type.
Proof. solve_decision. Defined.

(** A change record as the observer receives it: [type], [path] and [value]
    ([VUndefined] when the record has no [value]). *)
Record change := Change {
  c_type : change_type;
  c_path : list segment;
  c_value : jsval;
}.

Inductive opcode :=
| op_init | op_update | op_insert | op_delete | op_finalize | op_closed.

Global Instance opcode_eq_dec : EqDecision opcode.
Proof. solve_decision. Defined.

(** A message object; [None] in [msg_path] or [msg_value] is an absent
    property. *)
Record message {C : Codec} := Message {
  msg_op : opcode;
  msg_key : jskey;
  msg_path : option (list segment);
  msg_value : option wire;
}.

Section Translator.
Context {H : Host} {C : Codec}.

(** [c.path[0]] *)
Definition path_head (c : change) : jskey := head (c_path c).

(** [c.path.slice(1)] *)
Definition path_rest (c : change) : list segment := tail (c_path c).

Definition updateFromPath (c : change) (data : table) : result message :=
  match withPath (observable data) (c_path c) with
  | Ok v =>
      Ok {| msg_op := op_update;
            msg_key := path_head c;
            msg_path := Some (path_rest c);
            msg_value := Some (serialize v) |}
  | Throw e => Throw e
  end.

Definition insertStyleUpdate (op : opcode) (c : change) : message :=
  let result :=
    {| msg_op := op;
       msg_key := path_head c;
       msg_path := Some (path_rest c);
       msg_value := None |} in
  if decide (typeof (c_value c) ≠ TUndefined)
  then {| msg_op := msg_op result;
          msg_key := msg_key result;
          msg_path := msg_path result;
          msg_value := Some (serialize (c_value c)) |}
  else result.

(** [changeTypes[type].buildMessage] *)
Definition changeTypes (type : change_type)
  : change → table → result message :=
  match type with
  | ct_insert => λ c _, Ok (insertStyleUpdate op_insert c)
  | ct_update => λ c _, Ok (insertStyleUpdate op_update c)
  | ct_delete => λ c _, Ok (insertStyleUpdate op_delete c)
  | ct_shuffle => updateFromPath
  | ct_reverse => updateFromPath
  end.
End Translator.

(** ** The transport *)

(** What the engine uses of a transport and of the client handles it passes
    around: [transport.id], strict equality of handles ([!==]), and the
    property name a handle turns into when it is itself used as a key.
    [transport.send] is the log [sent] of the state below. *)
Class Transport := {
  client : Type;
  client_strict_eq :: EqDecision client;
  client_property_key : client → string;
  transport_id : client → string;
}.

(** ** MapOfLists *)

(** What [this.map[key]] holds: an array the map stores, or a member
    inherited from [Object.prototype], which is not an array. *)
Inductive held (A : Type) :=
| Array (l : list A)
| Member.
Arguments Array {A} l.
Arguments Member {A}.

Module MapOfLists.
Section Ops.
Context {A : Type}.
Implicit Types (map : gmap string (list A)) (key : string).

(** [delete] leaves an inherited member where it is. *)
Definition removeAll key map : gmap string (list A) := delete key map.

(** [value] is always an array here, so the [Array.isArray] guard never
    throws.  Every call in the source follows a [with(key).filter] on the
    same key. *)
Definition set key (value : list A) map : gmap string (list A) :=
  match value with
  | [] => delete key map
  | _ => <[key := value]> map
  end.

(** [with(key)]: the map after the call, and what it holds under [key].
    [typeof this.map[key]] is ['undefined'] only for a name the map neither
    owns nor inherits. *)
Definition with_ key map : gmap string (list A) * held A :=
  match map !! key with
  | Some l => (map, Array l)
  | None =>
      if inherited key then (map, Member)
      else (<[key := []]> map, Array [])
  end.

(** [with(key).push(x)]: [with] returns the array held by the map, so the
    push is seen under [key]; an inherited member has no [push]. *)
Definition push key (x : A) map : result unit * gmap string (list A) :=
  match with_ key map with
  | (map', Array l) => (Ok (), <[key := l ++ [x]]> map')
  | (map', Member) => (Throw TypeError, map')
  end.
End Ops.
End MapOfLists.

(** The list read under [k], an absent entry reading as the empty list. *)
Definition stored {A} (m : gmap string (list A)) (k : string) : list A :=
  default [] (m !! k).

(** No key of the map holds an empty list. *)
Definition no_empty_list {A} (m : gmap string (list A)) : Prop :=
  ∀ k l, m !! k = Some l → l ≠ [].

(** [with(key)] gives an array: the map owns [key], or nothing is inherited
    under that name. *)
Definition usable {A} (m : gmap string (list A)) (key : string) : Prop :=
  is_Some (m !! key) ∨ inherited key = false.

Global Instance usable_dec {A} (m : gmap string (list A)) key :
  Decision (usable m key).
Proof. unfold usable. apply _. Defined.

(** ** The engine state *)

Section State.
Context {T : Transport} {C : Codec}.

(** The two registries of [SubscriberState], the observed [data], and the
    messages handed to [transport.send], oldest first. *)
Record state := State {
  keyToSubscribedClients : gmap string (list client);
  clientsToSubscriptions : gmap string (list string);
  data : table;
  sent : list (client * message);
}.

(** The engine as [module.exports] builds it. *)
Definition initial : state :=
  {| keyToSubscribedClients := ∅; clientsToSubscriptions := ∅;
     data := []; sent := [] |}.

Definition set_keyToSubscribedClients (m : gmap string (list client))
    (st : state) : state :=
  {| keyToSubscribedClients := m;
     clientsToSubscriptions := clientsToSubscriptions st;
     data := data st; sent := sent st |}.

Definition set_clientsToSubscriptions (m : gmap string (list string))
    (st : state) : state :=
  {| keyToSubscribedClients := keyToSubscribedClients st;
     clientsToSubscriptions := m;
     data := data st; sent := sent st |}.

Definition set_data (d : table) (st : state) : state :=
  {| keyToSubscribedClients := keyToSubscribedClients st;
     clientsToSubscriptions := clientsToSubscriptions st;
     data := d; sent := sent st |}.

(** [transport.send(client, message)] *)
Definition send (c : client) (m : message) (st : state) : state :=
  {| keyToSubscribedClients := keyToSubscribedClients st;
     clientsToSubscriptions := clientsToSubscriptions st;
     data := data st; sent := sent st ++ [(c, m)] |}.

(** [e !== key] for a stored subscription [e] (a string) and a root object
    name taken from a path. *)
Definition subscription_differs (key : jskey) (e : string) : Prop :=
  Some (Field e) ≠ key.

Global Instance subscription_differs_dec key e :
  Decision (subscription_differs key e).
Proof. unfold subscription_differs. apply _. Defined.
End State.

(** ** SubscriberState *)

Module SubscriberState.
Section Methods.
Context {T : Transport} {C : Codec}.

(** [l.forEach(body)]: a throw ends the loop. *)
Fixpoint forEach {X} (l : list X) (body : X → state → result unit * state)
    (st : state) : result unit * state :=
  match l with
  | [] => (Ok (), st)
  | x :: rest =>
      match body x st with
      | (Ok _, st1) => forEach rest body st1
      | (Throw e, st1) => (Throw e, st1)
      end
  end.

Definition unlinkSilently (c : client) (key : string) (st : state)
  : result unit * state :=
  match MapOfLists.with_ key (keyToSubscribedClients st) with
  | (m, Array l) =>
      let newList := filter (λ e, e ≠ c) l in
      (Ok (), set_keyToSubscribedClients (MapOfLists.set key newList m) st)
  | (_, Member) => (Throw TypeError, st)
  end.

Definition sendObjectUpdate (rootObjectName : jskey) (m : message)
    (st : state) : result unit * state :=
  match MapOfLists.with_ (to_property_key rootObjectName)
          (keyToSubscribedClients st) with
  | (k2c, Array l) =>
      (Ok (), foldl (λ s c, send c m s) (set_keyToSubscribedClients k2c st) l)
  | (_, Member) => (Throw TypeError, st)
  end.

Definition link {H : Host} (c : client) (key : string) (st : state)
  : result unit * state :=
  match MapOfLists.push key c (keyToSubscribedClients st) with
  | (Throw e, _) => (Throw e, st)
  | (Ok _, k2c) =>
      let st1 := set_keyToSubscribedClients k2c st in
      match MapOfLists.push (transport_id c) key
              (clientsToSubscriptions st1) with
      | (Throw e, _) => (Throw e, st1)
      | (Ok _, c2s) =>
          let st2 := set_clientsToSubscriptions c2s st1 in
          (Ok (),
           send c {| msg_op := op_init;
                     msg_key := Some (Field key);
                     msg_path := None;
                     msg_value := Some (serialize (data_get (data st2) key)) |}
             st2)
      end
  end.

Definition unlink (c : client) (key : string) (st : state)
  : result unit * state :=
  match unlinkSilently c key st with
  | (Throw e, st1) => (Throw e, st1)
  | (Ok _, st1) =>
      (Ok (),
       send c {| msg_op := op_closed;
                 msg_key := Some (Field key);
                 msg_path := None;
                 msg_value := None |} st1)
  end.

Definition clearSubscribers (key : jskey) (st : state)
  : result unit * state :=
  match MapOfLists.with_ (to_property_key key) (keyToSubscribedClients st) with
  | (_, Member) => (Throw TypeError, st)
  | (k2c, Array l) =>
      let st1 := set_keyToSubscribedClients k2c st in
      match
        forEach l
          (λ c s,
             match MapOfLists.with_ (client_property_key c)
                     (clientsToSubscriptions s) with
             | (_, Member) => (Throw TypeError, s)
             | (c2s, Array subs) =>
                 let newSubscriptionList :=
                   filter (subscription_differs key) subs in
                 (Ok (),
                  set_clientsToSubscriptions
                    (MapOfLists.set (client_property_key c)
                       newSubscriptionList c2s) s)
             end)
          st1
      with
      | (Throw e, st2) => (Throw e, st2)
      | (Ok _, st2) =>
          (Ok (),
           set_keyToSubscribedClients
             (MapOfLists.removeAll (to_property_key key)
                (keyToSubscribedClients st2)) st2)
      end
  end.

(** The handler the constructor registers with
    [transport.on('disconnect', ...)]. *)
Definition on_disconnect (c : client) (st : state) : result unit * state :=
  match MapOfLists.with_ (client_property_key c)
          (clientsToSubscriptions st) with
  | (_, Member) => (Throw TypeError, st)
  | (c2s, Array keys) =>
      forEach keys (λ key s, unlinkSilently c key s)
        (set_clientsToSubscriptions c2s st)
  end.
End Methods.
End SubscriberState.

(** ** The engine *)

Section Engine.
Context {T : Transport} {C : Codec} {H : Host}.

Definition finalize_message (rootObjectName : jskey) : message :=
  {| msg_op := op_finalize;
     msg_key := rootObjectName;
     msg_path := None;
     msg_value := None |}.

(** The message the observer callback builds for one change. *)
Definition change_message (c : change) (d : table) : result message :=
  if decide (c_type c = ct_delete ∧ length (c_path c) = 1)
  then Ok (finalize_message (path_head c))
  else changeTypes (c_type c) c d.

(** The callback given to [data.observe], for one change. *)
Definition on_change (c : change) (st : state) : result unit * state :=
  let rootObjectName := path_head c in
  match change_message c (data st) with
  | Throw e => (Throw e, st)
  | Ok m =>
      match SubscriberState.sendObjectUpdate rootObjectName m st with
      | (Throw e, st1) => (Throw e, st1)
      | (Ok _, st1) =>
          if decide (msg_op m = op_finalize)
          then SubscriberState.clearSubscribers rootObjectName st1
          else (Ok (), st1)
      end
  end.

(** [changes.forEach(...)]: a throw ends the loop. *)
Fixpoint observe (changes : list change) (st : state) : result unit * state :=
  match changes with
  | [] => (Ok (), st)
  | c :: rest =>
      match on_change c st with
      | (Ok _, st1) => observe rest st1
      | (Throw e, st1) => (Throw e, st1)
      end
  end.

(** The public [link(client, key)]. *)
Definition link (c : client) (key : string) (st : state)
  : result unit * state :=
  if decide (typeof (data_get (data st) key) = TUndefined)
  then (Throw (NoSuchKey key), st)
  else SubscriberState.link c key st.

(** The public [unlink(client, key)]. *)
Definition unlink (c : client) (key : string) (st : state)
  : result unit * state :=
  SubscriberState.unlink c key st.

(** What can happen to an engine: the two entry points, a disconnect
    reported by the transport, and a mutation of the observed object, after
    which [data] is [data'] and the observer is called with [changes]. *)
Inductive event :=
| Link (c : client) (key : string)
| Unlink (c : client) (key : string)
| Disconnect (c : client)
| Mutate (data' : table) (changes : list change).

Definition step (ev : event) (st : state) : result unit * state :=
  match ev with
  | Link c key => link c key st
  | Unlink c key => unlink c key st
  | Disconnect c => SubscriberState.on_disconnect c st
  | Mutate data' changes => observe changes (set_data data' st)
  end.

(** A throw is reported to the caller of that event; the engine goes on
    from the state it left. *)
Definition run (evs : list event) (st : state) : state :=
  foldl (λ s ev, snd (step ev s)) st evs.

(** ** Observations *)

(** The messages handed to the transport for [c], oldest first. *)
Definition received (c : client) (log : list (client * message))
  : list message :=
  snd <$> filter (λ p, fst p = c) log.

(** [m] sent once to each of [l], in order. *)
Definition broadcast (m : message) (l : list client)
  : list (client * message) :=
  (λ c, (c, m)) <$> l.

(** How many times [c] is registered in [l]. *)
Definition registrations (c : client) (l : list client) : nat :=
  length (filter (λ e, e = c) l).

Definition subscribers (st : state) (key : string) : list client :=
  stored (keyToSubscribedClients st) key.

Definition subscriptions (st : state) (name : string) : list string :=
  stored (clientsToSubscriptions st) name.

(** A message is about [K] when its [key] names the property [K]. *)
Definition about (K : string) (m : message) : Prop :=
  to_property_key (msg_key m) = K.

(** Between two logs, [c] was handed no message about [K]. *)
Definition nothing_about (K : string) (c : client)
    (before after : list (client * message)) : Prop :=
  ∃ more, received c after = received c before ++ more
          ∧ Forall (λ m, ¬ about K m) more.

(** The events that are neither [c]'s own [link] nor [c]'s own [unlink]
    for [K]. *)
Definition quiet (c : client) (K : string) (ev : event) : Prop :=
  match ev with
  | Link c' K' | Unlink c' K' => ¬ (c' = c ∧ K' = K)
  | _ => True
  end.

(** The two maps agree on who is registered for what. *)
Definition consistent (st : state) : Prop :=
  ∀ c K, c ∈ subscribers st K ↔ K ∈ subscriptions st (transport_id c).

Definition tidy (st : state) : Prop :=
  no_empty_list (keyToSubscribedClients st)
  ∧ no_empty_list (clientsToSubscriptions st).
End Engine.

(** ** Two transports *)

(** The transport of the test suite: a handle is an object [{ name }], and
    [id] reads its name.  [buildFakeClient] refuses to build two clients of
    one name, so the name stands for the object's identity.  An object used
    as a property name is ["[object Object]"]. *)
Record fake_client := FakeClient { name : string }.

Global Instance fake_client_eq_dec : EqDecision fake_client.
Proof. solve_decision. Defined.

Definition fake_transport : Transport :=
  {| client := fake_client;
     client_property_key := λ _, "[object Object]";
     transport_id := name |}.

(** A transport whose handles are strings that are their own identifier. *)
Definition string_transport : Transport :=
  {| client := string;
     client_property_key := λ c, c;
     transport_id := λ c, c |}.

(** ** A host *)

(** The host of the scenarios: the root carries [observe], and no scenario
    reads a member of an array, string, number, boolean or function. *)
Definition scenario_host : Host :=
  {| observable_members := ["observe"];
     observable_has_observe := list_elem_of_here _ _;
     builtin_member := λ _ _, None;
     builtin_member_no_index := λ _ _, eq_refl |}.

(** The opcode spelled like a change type; the two reorderings are sent as
    updates. *)
Definition opcode_of (type : change_type) : opcode :=
  match type with
  | ct_insert => op_insert
  | ct_update => op_update
  | ct_delete => op_delete
  | ct_shuffle => op_update
  | ct_reverse => op_update
  end.

(** ** Scenarios *)

(** The values the test suite works with. *)
Definition client1 : @client fake_transport := FakeClient "client1".

Definition foo_abc : table := [("foo", VStr "abc")].
Definition foo_def : table := [("foo", VStr "def")].
Definition foo_bar_acb : table :=
  [("foo", VObj [("bar", VArr [VStr "a"; VStr "c"; VStr "b"])])].
Definition foo_bar_abc : table :=
  [("foo", VObj [("bar", VArr [VStr "a"; VStr "b"; VStr "c"])])].

(** [server.data['foo'] = 'abc'] on an empty table. *)
Definition set_foo : change := Change ct_insert [Field "foo"] (VStr "abc").
(** [server.data['foo'] = 'def'] once [foo] exists. *)
Definition update_foo : change := Change ct_update [Field "foo"] (VStr "def").
(** [delete server.data['foo']] *)
Definition delete_foo : change := Change ct_delete [Field "foo"] VUndefined.
(** [server.data['foo'] = { bar: ['a', 'c', 'b'] }] on an empty table. *)
Definition set_foo_bar : change :=
  Change ct_insert [Field "foo"]
    (VObj [("bar", VArr [VStr "a"; VStr "c"; VStr "b"])]).
(** [server.data.foo.bar.sort()] *)
Definition sort_foo_bar : change :=
  Change ct_shuffle [Field "foo"; Field "bar"] VUndefined.

Definition client2 : @client fake_transport := FakeClient "client2".
Definition client3 : @client fake_transport := FakeClient "client3".

Definition foo_empty : table := [("foo", VObj [])].
(** [server.data['foo'] = {}] on an empty table. *)
Definition set_foo_empty : change := Change ct_insert [Field "foo"] (VObj []).
(** [server.data['foo'].abc = 'def'] *)
Definition add_abc : change :=
  Change ct_insert [Field "foo"; Field "abc"] (VStr "def").
(** [delete server.data['foo'].abc] *)
Definition remove_abc : change :=
  Change ct_delete [Field "foo"; Field "abc"] VUndefined.
(** A root value with members that have no wire representation. *)
Definition with_functions : jsval :=
  VObj [("arrayElement", VArr [VStr "abc"; VFun; VStr "def"]);
        ("objectField", VFun)].

(** [client1] links to [foo] once it holds ['abc']. *)
Definition linked_once : @state fake_transport sejr :=
  @run _ _ scenario_host [Mutate foo_abc [set_foo]; Link client1 "foo"] initial.

(** The same client links a second time. *)
Definition linked_twice : @state fake_transport sejr :=
  @run _ _ scenario_host [Link client1 "foo"] linked_once.

(** A handle of the string transport. *)
Definition client_s : @client string_transport := "client1".

(** The same scenario over the string transport. *)
Definition linked_once_s : @state string_transport sejr :=
  @run _ _ scenario_host [Mutate foo_abc [set_foo]; Link client_s "foo"]
    initial.

Definition init_message {C : Codec} (K : string) (v : jsval) : message :=
  {| msg_op := op_init; msg_key := Some (Field K);
     msg_path := None; msg_value := Some (serialize v) |}.

Definition closed_message {C : Codec} (K : string) : message :=
  {| msg_op := op_closed; msg_key := Some (Field K);
     msg_path := None; msg_value := None |}.

(** * Properties *)

(** ** Lists *)

Lemma filter_twice {B} (P : B → Prop) `{∀ x, Decision (P x)} (l : list B) :
  filter P (filter P l) = filter P l.
Proof.
  induction l as [|x l IH]; [done|].
  rewrite filter_cons. destruct (decide (P x)) as [Hx|Hx]; [|done].
  rewrite filter_cons, decide_True by done. by rewrite IH.
Qed.

(** ** MapOfLists, seen through the list stored under each key *)

Section MapOfLists_facts.
Context {A : Type}.
Implicit Types (m : gmap string (list A)) (k key : string) (l : list A).

Lemma with_usable m key :
  usable m key →
  MapOfLists.with_ key m
  = (fst (MapOfLists.with_ key m), Array (stored m key)).
Proof.
  unfold usable, MapOfLists.with_, stored. intros [[l Hl]|Hi].
  - by rewrite Hl.
  - destruct (m !! key); [done|]. by rewrite Hi.
Qed.

Lemma with_unusable m key :
  ¬ usable m key →
  MapOfLists.with_ key m = (m, Member) ∧ m !! key = None.
Proof.
  unfold usable, MapOfLists.with_. intros Hu.
  destruct (m !! key) eqn:E; [destruct Hu; eauto|].
  destruct (inherited key) eqn:Hi; [done|]. destruct Hu. by right.
Qed.

Lemma unusable_stored m key : ¬ usable m key → stored m key = [].
Proof.
  intros Hu. unfold stored. by destruct (with_unusable m key Hu) as [_ ->].
Qed.

Lemma with_stored m key k :
  stored (fst (MapOfLists.with_ key m)) k = stored m k.
Proof.
  unfold MapOfLists.with_, stored.
  destruct (m !! key) eqn:E; [done|].
  destruct (inherited key); [done|]. simpl.
  destruct (decide (key = k)) as [->|Hne].
  - by rewrite lookup_insert_eq, E.
  - by rewrite lookup_insert_ne.
Qed.

Lemma with_lookup_ne m key k :
  key ≠ k → fst (MapOfLists.with_ key m) !! k = m !! k.
Proof.
  intros Hne. unfold MapOfLists.with_.
  destruct (m !! key); [done|]. destruct (inherited key); [done|].
  simpl. by rewrite lookup_insert_ne.
Qed.

Lemma with_lookup_eq m key :
  usable m key → fst (MapOfLists.with_ key m) !! key = Some (stored m key).
Proof.
  unfold usable, MapOfLists.with_, stored. intros [[l Hl]|Hi].
  - by rewrite Hl.
  - destruct (m !! key) eqn:E; [done|]. rewrite Hi. simpl.
    by rewrite lookup_insert_eq.
Qed.

Lemma with_keeps_usable m key k :
  usable m k → usable (fst (MapOfLists.with_ key m)) k.
Proof.
  intros [[l Hl]|Hi]; [|by right]. left.
  destruct (decide (key = k)) as [->|Hne].
  - rewrite with_lookup_eq; [done|]. left. eauto.
  - rewrite with_lookup_ne by done. eauto.
Qed.

Lemma set_stored m key l k :
  stored (MapOfLists.set key l m) k = if decide (key = k) then l else stored m k.
Proof.
  unfold MapOfLists.set, stored.
  destruct l; case_decide; subst;
    rewrite ?lookup_delete_eq, ?lookup_insert_eq,
      ?lookup_delete_ne, ?lookup_insert_ne by done; done.
Qed.

Lemma removeAll_stored m key k :
  stored (MapOfLists.removeAll key m) k = if decide (key = k) then [] else stored m k.
Proof.
  unfold MapOfLists.removeAll, stored.
  case_decide; subst; rewrite ?lookup_delete_eq, ?lookup_delete_ne by done; done.
Qed.

Lemma set_after_with m key l :
  MapOfLists.set key l (fst (MapOfLists.with_ key m)) = MapOfLists.set key l m.
Proof.
  unfold MapOfLists.with_, MapOfLists.set.
  destruct (m !! key); simpl; [done|]. destruct (inherited key); [done|].
  simpl. destruct l; [apply delete_insert_eq|apply insert_insert_eq].
Qed.

Lemma set_twice m key l :
  MapOfLists.set key l (MapOfLists.set key l m) = MapOfLists.set key l m.
Proof.
  unfold MapOfLists.set.
  destruct l; [apply delete_delete_eq|apply insert_insert_eq].
Qed.

Lemma push_usable m key x :
  usable m key →
  MapOfLists.push key x m
  = (Ok (), <[key := stored m key ++ [x]]> (fst (MapOfLists.with_ key m))).
Proof.
  intros Hu. unfold MapOfLists.push. by rewrite (with_usable m key Hu).
Qed.

Lemma push_unusable m key x :
  ¬ usable m key → MapOfLists.push key x m = (Throw TypeError, m).
Proof.
  intros Hu. unfold MapOfLists.push.
  by destruct (with_unusable m key Hu) as [-> _].
Qed.

Lemma push_stored m key x k :
  stored (snd (MapOfLists.push key x m)) k
  = if decide (key = k ∧ usable m key) then stored m key ++ [x]
    else stored m k.
Proof.
  destruct (decide (usable m key)) as [Hu|Hu].
  - rewrite (push_usable m key x Hu). simpl. unfold stored at 1.
    destruct (decide (key = k)) as [->|Hne].
    + rewrite lookup_insert_eq, decide_True by done. done.
    + rewrite lookup_insert_ne, decide_False by (done || by intros [? _]).
      apply with_stored.
  - rewrite (push_unusable m key x Hu). simpl.
    rewrite decide_False; [done|]. by intros [_ ?].
Qed.

(** [set] after [with] on the same key leaves no empty list behind. *)
Lemma set_no_new_empty m key l k :
  MapOfLists.set key l m !! k = Some [] → m !! k = Some [].
Proof.
  unfold MapOfLists.set. intros Hk.
  destruct (decide (key = k)) as [->|Hne].
  - destruct l.
    + by rewrite lookup_delete_eq in Hk.
    + by rewrite lookup_insert_eq in Hk.
  - destruct l; by rewrite ?lookup_delete_ne, ?lookup_insert_ne in Hk.
Qed.

Lemma push_no_new_empty m key x k :
  snd (MapOfLists.push key x m) !! k = Some [] → m !! k = Some [].
Proof.
  destruct (decide (usable m key)) as [Hu|Hu].
  - rewrite (push_usable m key x Hu). simpl. intros Hk.
    destruct (decide (key = k)) as [->|Hne].
    + rewrite lookup_insert_eq in Hk. inversion Hk as [Hl].
      by destruct (stored m k).
    + rewrite lookup_insert_ne in Hk by done.
      by rewrite with_lookup_ne in Hk.
  - by rewrite (push_unusable m key x Hu).
Qed.

(** Removing the last entry removes the map entry. *)
Lemma set_empty_removes m key : MapOfLists.set key [] m !! key = None.
Proof. unfold MapOfLists.set. apply lookup_delete_eq. Qed.

(** A lookup of an absent key that is not inherited leaves an empty list in
    the map. *)
Lemma with_absent_stores_empty m key :
  m !! key = None → inherited key = false →
  fst (MapOfLists.with_ key m) !! key = Some [].
Proof.
  intros E Hi. unfold MapOfLists.with_. rewrite E, Hi. simpl.
  apply lookup_insert_eq.
Qed.

Lemma with_twice m key :
  MapOfLists.with_ key (fst (MapOfLists.with_ key m)) = MapOfLists.with_ key m.
Proof.
  destruct (decide (usable m key)) as [Hu|Hu].
  - unfold MapOfLists.with_ at 1. rewrite (with_lookup_eq m key Hu).
    by rewrite (with_usable m key Hu) at 2.
  - destruct (with_unusable m key Hu) as [E _]. by rewrite E.
Qed.
End MapOfLists_facts.

(** ** What each method of SubscriberState does to the state *)

Section SubscriberState_facts.
Context {T : Transport} {C : Codec} {H : Host}.
Implicit Types (st : state) (c : client) (key k : string) (m : message).

Lemma send_each_sent m l st :
  sent (foldl (λ s c, send c m s) st l) = sent st ++ broadcast m l.
Proof.
  revert st. induction l as [|c l IH]; intros st; simpl.
  - by rewrite app_nil_r.
  - rewrite IH. simpl. by rewrite <- app_assoc.
Qed.

Lemma send_each_rest m l st :
  keyToSubscribedClients (foldl (λ s c, send c m s) st l)
    = keyToSubscribedClients st
  ∧ clientsToSubscriptions (foldl (λ s c, send c m s) st l)
    = clientsToSubscriptions st
  ∧ data (foldl (λ s c, send c m s) st l) = data st.
Proof.
  revert st. induction l as [|c l IH]; intros st; simpl; [done|].
  destruct (IH (send c m st)) as (-> & -> & ->). done.
Qed.

(** *** sendObjectUpdate *)

Lemma sendObjectUpdate_usable (r : jskey) m st :
  usable (keyToSubscribedClients st) (to_property_key r) →
  SubscriberState.sendObjectUpdate r m st
  = (Ok (),
     foldl (λ s c, send c m s)
       (set_keyToSubscribedClients
          (fst (MapOfLists.with_ (to_property_key r)
                  (keyToSubscribedClients st))) st)
       (subscribers st (to_property_key r))).
Proof.
  intros Hu. unfold SubscriberState.sendObjectUpdate, subscribers.
  by rewrite (with_usable _ _ Hu).
Qed.

Lemma sendObjectUpdate_unusable (r : jskey) m st :
  ¬ usable (keyToSubscribedClients st) (to_property_key r) →
  SubscriberState.sendObjectUpdate r m st = (Throw TypeError, st).
Proof.
  intros Hu. unfold SubscriberState.sendObjectUpdate.
  by destruct (with_unusable _ _ Hu) as [-> _].
Qed.

Lemma sendObjectUpdate_sent (r : jskey) m st :
  sent (snd (SubscriberState.sendObjectUpdate r m st))
  = sent st ++ broadcast m (subscribers st (to_property_key r)).
Proof.
  destruct (decide (usable (keyToSubscribedClients st) (to_property_key r)))
    as [Hu|Hu].
  - rewrite (sendObjectUpdate_usable r m st Hu). simpl.
    by rewrite send_each_sent.
  - rewrite (sendObjectUpdate_unusable r m st Hu). simpl.
    unfold subscribers. rewrite (unusable_stored _ _ Hu).
    by rewrite app_nil_r.
Qed.

Lemma sendObjectUpdate_keyToSubscribedClients (r : jskey) m st :
  keyToSubscribedClients (snd (SubscriberState.sendObjectUpdate r m st))
  = fst (MapOfLists.with_ (to_property_key r) (keyToSubscribedClients st)).
Proof.
  destruct (decide (usable (keyToSubscribedClients st) (to_property_key r)))
    as [Hu|Hu].
  - rewrite (sendObjectUpdate_usable r m st Hu). simpl.
    by destruct (send_each_rest m (subscribers st (to_property_key r))
                   (set_keyToSubscribedClients
                      (fst (MapOfLists.with_ (to_property_key r)
                              (keyToSubscribedClients st))) st))
      as (-> & _).
  - rewrite (sendObjectUpdate_unusable r m st Hu). simpl.
    by destruct (with_unusable _ _ Hu) as [-> _].
Qed.

Lemma sendObjectUpdate_subscribers (r : jskey) m st k :
  subscribers (snd (SubscriberState.sendObjectUpdate r m st)) k
  = subscribers st k.
Proof.
  unfold subscribers. rewrite sendObjectUpdate_keyToSubscribedClients.
  apply with_stored.
Qed.

Lemma sendObjectUpdate_rest (r : jskey) m st :
  clientsToSubscriptions (snd (SubscriberState.sendObjectUpdate r m st))
    = clientsToSubscriptions st
  ∧ data (snd (SubscriberState.sendObjectUpdate r m st)) = data st.
Proof.
  destruct (decide (usable (keyToSubscribedClients st) (to_property_key r)))
    as [Hu|Hu].
  - rewrite (sendObjectUpdate_usable r m st Hu). simpl.
    by destruct (send_each_rest m (subscribers st (to_property_key r))
                   (set_keyToSubscribedClients
                      (fst (MapOfLists.with_ (to_property_key r)
                              (keyToSubscribedClients st))) st))
      as (_ & -> & ->).
  - by rewrite (sendObjectUpdate_unusable r m st Hu).
Qed.

Lemma sendObjectUpdate_usable_after (r : jskey) m st :
  usable (keyToSubscribedClients st) (to_property_key r) →
  usable (keyToSubscribedClients
            (snd (SubscriberState.sendObjectUpdate r m st)))
    (to_property_key r).
Proof.
  intros Hu. rewrite sendObjectUpdate_keyToSubscribedClients.
  by apply with_keeps_usable.
Qed.

(** *** unlinkSilently *)

Lemma unlinkSilently_usable c key st :
  usable (keyToSubscribedClients st) key →
  SubscriberState.unlinkSilently c key st
  = (Ok (),
     set_keyToSubscribedClients
       (MapOfLists.set key (filter (λ e, e ≠ c) (subscribers st key))
          (keyToSubscribedClients st)) st).
Proof.
  intros Hu. unfold SubscriberState.unlinkSilently, subscribers.
  rewrite (with_usable _ _ Hu). by rewrite set_after_with.
Qed.

Lemma unlinkSilently_unusable c key st :
  ¬ usable (keyToSubscribedClients st) key →
  SubscriberState.unlinkSilently c key st = (Throw TypeError, st).
Proof.
  intros Hu. unfold SubscriberState.unlinkSilently.
  by destruct (with_unusable _ _ Hu) as [-> _].
Qed.

Lemma unlinkSilently_rest c key st :
  clientsToSubscriptions (snd (SubscriberState.unlinkSilently c key st))
    = clientsToSubscriptions st
  ∧ data (snd (SubscriberState.unlinkSilently c key st)) = data st
  ∧ sent (snd (SubscriberState.unlinkSilently c key st)) = sent st.
Proof.
  destruct (decide (usable (keyToSubscribedClients st) key)) as [Hu|Hu].
  - by rewrite (unlinkSilently_usable c key st Hu).
  - by rewrite (unlinkSilently_unusable c key st Hu).
Qed.

Lemma unlinkSilently_subscribers c key st k :
  subscribers (snd (SubscriberState.unlinkSilently c key st)) k
  = if decide (key = k) then filter (λ e, e ≠ c) (subscribers st key)
    else subscribers st k.
Proof.
  destruct (decide (usable (keyToSubscribedClients st) key)) as [Hu|Hu].
  - rewrite (unlinkSilently_usable c key st Hu). unfold subscribers. simpl.
    by rewrite set_stored.
  - rewrite (unlinkSilently_unusable c key st Hu). simpl.
    case_decide; [subst k|done].
    unfold subscribers. by rewrite (unusable_stored _ _ Hu).
Qed.

(** *** link *)

Lemma link_usable c key st :
  usable (keyToSubscribedClients st) key →
  usable (clientsToSubscriptions st) (transport_id c) →
  ∃ st1,
    SubscriberState.link c key st = (Ok (), st1)
    ∧ data st1 = data st
    ∧ sent st1 = sent st ++ [(c, init_message key (data_get (data st) key))]
    ∧ (∀ k, subscribers st1 k
            = if decide (key = k) then subscribers st key ++ [c]
              else subscribers st k)
    ∧ (∀ n, subscriptions st1 n
            = if decide (transport_id c = n)
              then subscriptions st (transport_id c) ++ [key]
              else subscriptions st n).
Proof.
  intros Hk Hc. unfold SubscriberState.link.
  rewrite (push_usable _ key c Hk). simpl.
  rewrite (push_usable _ (transport_id c) key Hc). simpl.
  eexists. split; [done|]. split; [done|]. split; [done|]. split.
  - intros k. unfold subscribers, stored at 1. simpl.
    destruct (decide (key = k)) as [->|Hne].
    + by rewrite lookup_insert_eq.
    + rewrite lookup_insert_ne by done. apply with_stored.
  - intros n. unfold subscriptions, stored at 1. simpl.
    destruct (decide (transport_id c = n)) as [<-|Hne].
    + by rewrite lookup_insert_eq.
    + rewrite lookup_insert_ne by done. apply with_stored.
Qed.

Lemma link_fst c key st :
  fst (SubscriberState.link c key st)
  = if decide (usable (keyToSubscribedClients st) key
               ∧ usable (clientsToSubscriptions st) (transport_id c))
    then Ok () else Throw TypeError.
Proof.
  unfold SubscriberState.link.
  destruct (decide (usable (keyToSubscribedClients st) key)) as [Hk|Hk].
  - rewrite (push_usable _ key c Hk). simpl.
    destruct (decide (usable (clientsToSubscriptions st) (transport_id c)))
      as [Hc|Hc].
    + rewrite (push_usable _ (transport_id c) key Hc). simpl.
      by rewrite decide_True.
    + rewrite (push_unusable _ (transport_id c) key Hc). simpl.
      rewrite decide_False; [done|]. by intros [_ ?].
  - rewrite (push_unusable _ key c Hk). simpl.
    rewrite decide_False; [done|]. by intros [? _].
Qed.

Lemma link_data c key st :
  data (snd (SubscriberState.link c key st)) = data st.
Proof.
  unfold SubscriberState.link.
  destruct (MapOfLists.push key c _) as [[[]|e] k2c]; simpl; [|done].
  by destruct (MapOfLists.push (transport_id c) key _) as [[[]|e] c2s].
Qed.

Lemma link_subscribers c key st k :
  subscribers (snd (SubscriberState.link c key st)) k
  = if decide (key = k ∧ usable (keyToSubscribedClients st) key)
    then subscribers st key ++ [c] else subscribers st k.
Proof.
  pose proof (push_stored (keyToSubscribedClients st) key c k) as Hp.
  unfold SubscriberState.link, subscribers.
  destruct (MapOfLists.push key c _) as [[[]|e] k2c] eqn:E; simpl in *.
  - destruct (MapOfLists.push (transport_id c) key _) as [[[]|e] c2s];
      simpl; exact Hp.
  - rewrite decide_False; [done|]. intros [_ Hu].
    by rewrite (push_usable _ key c Hu) in E.
Qed.

Lemma link_subscriptions c key st n :
  subscriptions (snd (SubscriberState.link c key st)) n
  = if decide (transport_id c = n
               ∧ usable (keyToSubscribedClients st) key
               ∧ usable (clientsToSubscriptions st) (transport_id c))
    then subscriptions st (transport_id c) ++ [key]
    else subscriptions st n.
Proof.
  unfold SubscriberState.link, subscriptions.
  destruct (decide (usable (keyToSubscribedClients st) key)) as [Hk|Hk].
  - rewrite (push_usable _ key c Hk). simpl.
    pose proof (push_stored (clientsToSubscriptions st) (transport_id c)
                  key n) as Hp.
    destruct (MapOfLists.push (transport_id c) key _) as [[[]|e] c2s] eqn:E;
      simpl in *.
    + rewrite Hp. destruct (decide (transport_id c = n ∧ _)) as [[? ?]|Hno].
      * by rewrite decide_True.
      * rewrite decide_False; [done|]. intros (? & _ & ?). by apply Hno.
    + rewrite decide_False; [done|]. intros (_ & _ & Hu).
      by rewrite (push_usable _ _ key Hu) in E.
  - rewrite (push_unusable _ key c Hk). simpl.
    rewrite decide_False; [done|]. by intros (_ & ? & _).
Qed.

Lemma link_sent c key st :
  sent (snd (SubscriberState.link c key st))
  = if decide (usable (keyToSubscribedClients st) key
               ∧ usable (clientsToSubscriptions st) (transport_id c))
    then sent st ++ [(c, init_message key (data_get (data st) key))]
    else sent st.
Proof.
  unfold SubscriberState.link.
  destruct (decide (usable (keyToSubscribedClients st) key)) as [Hk|Hk].
  - rewrite (push_usable _ key c Hk). simpl.
    destruct (decide (usable (clientsToSubscriptions st) (transport_id c)))
      as [Hc|Hc].
    + rewrite (push_usable _ (transport_id c) key Hc). simpl.
      by rewrite decide_True.
    + rewrite (push_unusable _ (transport_id c) key Hc). simpl.
      rewrite decide_False; [done|]. by intros [_ ?].
  - rewrite (push_unusable _ key c Hk). simpl.
    rewrite decide_False; [done|]. by intros [? _].
Qed.

(** *** unlink *)

Lemma unlink_usable c key st :
  usable (keyToSubscribedClients st) key →
  SubscriberState.unlink c key st
  = (Ok (),
     send c (closed_message key)
       (snd (SubscriberState.unlinkSilently c key st))).
Proof.
  intros Hu. unfold SubscriberState.unlink.
  by rewrite (unlinkSilently_usable c key st Hu).
Qed.

Lemma unlink_unusable c key st :
  ¬ usable (keyToSubscribedClients st) key →
  SubscriberState.unlink c key st = (Throw TypeError, st).
Proof.
  intros Hu. unfold SubscriberState.unlink.
  by rewrite (unlinkSilently_unusable c key st Hu).
Qed.

Lemma unlink_sent c key st :
  sent (snd (SubscriberState.unlink c key st))
  = if decide (usable (keyToSubscribedClients st) key)
    then sent st ++ [(c, closed_message key)] else sent st.
Proof.
  case_decide as Hu.
  - rewrite (unlink_usable c key st Hu). simpl.
    by destruct (unlinkSilently_rest c key st) as (_ & _ & ->).
  - by rewrite (unlink_unusable c key st Hu).
Qed.

Lemma unlink_subscribers c key st k :
  subscribers (snd (SubscriberState.unlink c key st)) k
  = if decide (key = k) then filter (λ e, e ≠ c) (subscribers st key)
    else subscribers st k.
Proof.
  rewrite <- unlinkSilently_subscribers.
  destruct (decide (usable (keyToSubscribedClients st) key)) as [Hu|Hu].
  - by rewrite (unlink_usable c key st Hu).
  - by rewrite (unlink_unusable c key st Hu),
      (unlinkSilently_unusable c key st Hu).
Qed.

Lemma unlink_rest c key st :
  clientsToSubscriptions (snd (SubscriberState.unlink c key st))
    = clientsToSubscriptions st
  ∧ data (snd (SubscriberState.unlink c key st)) = data st.
Proof.
  destruct (unlinkSilently_rest c key st) as (Hc & Hd & _).
  destruct (decide (usable (keyToSubscribedClients st) key)) as [Hu|Hu].
  - by rewrite (unlink_usable c key st Hu).
  - by rewrite (unlink_unusable c key st Hu).
Qed.
End SubscriberState_facts.

(** ** clearSubscribers and the disconnect handler *)

Section Loops.
Context {T : Transport} {C : Codec} {H : Host}.
Implicit Types (st s : state) (c : client) (key : jskey) (k n : string).

(** The body of the loop of [clearSubscribers]. *)
Lemma clear_body_cases key c s :
  let r := match MapOfLists.with_ (client_property_key c)
                   (clientsToSubscriptions s) with
           | (_, Member) => (Throw TypeError, s)
           | (c2s, Array subs) =>
               (Ok (),
                set_clientsToSubscriptions
                  (MapOfLists.set (client_property_key c)
                     (filter (subscription_differs key) subs) c2s) s)
           end in
  (usable (clientsToSubscriptions s) (client_property_key c)
   ∧ r = (Ok (),
          set_clientsToSubscriptions
            (MapOfLists.set (client_property_key c)
               (filter (subscription_differs key)
                  (subscriptions s (client_property_key c)))
               (clientsToSubscriptions s)) s))
  ∨ (¬ usable (clientsToSubscriptions s) (client_property_key c)
     ∧ subscriptions s (client_property_key c) = []
     ∧ r = (Throw TypeError, s)).
Proof.
  intros r. subst r.
  destruct (decide (usable (clientsToSubscriptions s) (client_property_key c)))
    as [Hu|Hu].
  - left. split; [done|]. rewrite (with_usable _ _ Hu).
    by rewrite set_after_with.
  - right. split; [done|]. split; [by apply unusable_stored|].
    by destruct (with_unusable _ _ Hu) as [-> _].
Qed.

Lemma clear_loop_rest key (l : list client) st :
  let body := λ (c : client) (s : state),
    match MapOfLists.with_ (client_property_key c)
            (clientsToSubscriptions s) with
    | (_, Member) => (Throw TypeError, s)
    | (c2s, Array subs) =>
        (Ok (),
         set_clientsToSubscriptions
           (MapOfLists.set (client_property_key c)
              (filter (subscription_differs key) subs) c2s) s)
    end in
  keyToSubscribedClients (snd (SubscriberState.forEach l body st))
    = keyToSubscribedClients st
  ∧ data (snd (SubscriberState.forEach l body st)) = data st
  ∧ sent (snd (SubscriberState.forEach l body st)) = sent st.
Proof.
  intros body. revert st. induction l as [|c l IH]; intros st; simpl; [done|].
  destruct (clear_body_cases key c st) as [[_ E]|(_ & _ & E)];
    fold (body c st) in E; rewrite E; [|done].
  by destruct (IH (set_clientsToSubscriptions
                     (MapOfLists.set (client_property_key c)
                        (filter (subscription_differs key)
                           (subscriptions st (client_property_key c)))
                        (clientsToSubscriptions st)) st))
    as (-> & -> & ->).
Qed.

Lemma clear_loop_no_new_empty key (l : list client) st k :
  let body := λ (c : client) (s : state),
    match MapOfLists.with_ (client_property_key c)
            (clientsToSubscriptions s) with
    | (_, Member) => (Throw TypeError, s)
    | (c2s, Array subs) =>
        (Ok (),
         set_clientsToSubscriptions
           (MapOfLists.set (client_property_key c)
              (filter (subscription_differs key) subs) c2s) s)
    end in
  clientsToSubscriptions (snd (SubscriberState.forEach l body st)) !! k
    = Some [] →
  clientsToSubscriptions st !! k = Some [].
Proof.
  intros body. revert st. induction l as [|c l IH]; intros st; simpl; [done|].
  destruct (clear_body_cases key c st) as [[_ E]|(_ & _ & E)];
    fold (body c st) in E; rewrite E; [|done].
  intros Hk. apply IH in Hk. simpl in Hk. by apply set_no_new_empty in Hk.
Qed.

Lemma clear_loop_completes key (l : list client) st n :
  let body := λ (c : client) (s : state),
    match MapOfLists.with_ (client_property_key c)
            (clientsToSubscriptions s) with
    | (_, Member) => (Throw TypeError, s)
    | (c2s, Array subs) =>
        (Ok (),
         set_clientsToSubscriptions
           (MapOfLists.set (client_property_key c)
              (filter (subscription_differs key) subs) c2s) s)
    end in
  Forall (λ c, inherited (client_property_key c) = false) l →
  fst (SubscriberState.forEach l body st) = Ok ()
  ∧ subscriptions (snd (SubscriberState.forEach l body st)) n
    = if decide (n ∈ client_property_key <$> l)
      then filter (subscription_differs key) (subscriptions st n)
      else subscriptions st n.
Proof.
  intros body Hl. revert st. induction Hl as [|c l Hc _ IH]; intros st.
  - done.
  - simpl.
    destruct (clear_body_cases key c st) as [[_ E]|(Hu & _ & _)];
      [|destruct Hu; by right].
    fold (body c st) in E. rewrite E.
    set (st1 := set_clientsToSubscriptions
                  (MapOfLists.set (client_property_key c)
                     (filter (subscription_differs key)
                        (subscriptions st (client_property_key c)))
                     (clientsToSubscriptions st)) st).
    assert (subscriptions st1 n
            = if decide (client_property_key c = n)
              then filter (subscription_differs key) (subscriptions st n)
              else subscriptions st n) as Hst1.
    { unfold st1, subscriptions. simpl. rewrite set_stored.
      by destruct (decide (client_property_key c = n)) as [<-|?]. }
    destruct (IH st1) as [-> ->]. split; [done|]. rewrite Hst1.
    destruct (decide (client_property_key c = n)) as [Hn|Hn].
    + rewrite (decide_True (P := n ∈ _ :: _))
        by (subst; apply list_elem_of_here).
      subst n. case_decide; [apply filter_twice|done].
    + destruct (decide (n ∈ client_property_key <$> l)) as [Hin|Hout].
      * rewrite decide_True; [done|]. by apply list_elem_of_further.
      * rewrite decide_False; [done|].
        intros [?|?]%elem_of_cons; [by apply Hn|by apply Hout].
Qed.

Lemma forEach_nil_or_ok {X} (l : list X) body st e :
  fst (SubscriberState.forEach l body st) = Throw e → l ≠ [].
Proof. by destruct l. Qed.

(** *** clearSubscribers *)

Lemma clearSubscribers_unusable key st :
  ¬ usable (keyToSubscribedClients st) (to_property_key key) →
  SubscriberState.clearSubscribers key st = (Throw TypeError, st).
Proof.
  intros Hu. unfold SubscriberState.clearSubscribers.
  by destruct (with_unusable _ _ Hu) as [-> _].
Qed.

Lemma clearSubscribers_rest key st :
  data (snd (SubscriberState.clearSubscribers key st)) = data st
  ∧ sent (snd (SubscriberState.clearSubscribers key st)) = sent st.
Proof.
  destruct (decide (usable (keyToSubscribedClients st) (to_property_key key)))
    as [Hu|Hu]; [|by rewrite (clearSubscribers_unusable key st Hu)].
  unfold SubscriberState.clearSubscribers. rewrite (with_usable _ _ Hu).
  match goal with
  | |- context [SubscriberState.forEach ?l ?b ?s] =>
      destruct (clear_loop_rest key l s) as (_ & Hd & Hs);
      destruct (SubscriberState.forEach l b s) as [[[]|e] st2]
  end; simpl in *; by rewrite Hd, Hs.
Qed.

Lemma clearSubscribers_keyToSubscribedClients key st :
  keyToSubscribedClients (snd (SubscriberState.clearSubscribers key st))
  = if decide (fst (SubscriberState.clearSubscribers key st) = Ok ())
    then MapOfLists.removeAll (to_property_key key)
           (fst (MapOfLists.with_ (to_property_key key)
                   (keyToSubscribedClients st)))
    else fst (MapOfLists.with_ (to_property_key key)
                (keyToSubscribedClients st)).
Proof.
  destruct (decide (usable (keyToSubscribedClients st) (to_property_key key)))
    as [Hu|Hu].
  - unfold SubscriberState.clearSubscribers. rewrite (with_usable _ _ Hu).
    match goal with
    | |- context [SubscriberState.forEach ?l ?b ?s] =>
        destruct (clear_loop_rest key l s) as (Hk & _ & _);
        destruct (SubscriberState.forEach l b s) as [[[]|e] st2]
    end; simpl in *; by rewrite Hk.
  - rewrite (clearSubscribers_unusable key st Hu). simpl.
    by destruct (with_unusable _ _ Hu) as [-> _].
Qed.

Lemma clearSubscribers_subscribers key st k :
  subscribers (snd (SubscriberState.clearSubscribers key st)) k
  = if decide (fst (SubscriberState.clearSubscribers key st) = Ok ()
               ∧ to_property_key key = k)
    then [] else subscribers st k.
Proof.
  unfold subscribers. rewrite clearSubscribers_keyToSubscribedClients.
  destruct (decide (fst _ = Ok ())) as [Hok|Hno].
  - rewrite removeAll_stored, with_stored.
    destruct (decide (to_property_key key = k)).
    + by rewrite decide_True.
    + rewrite decide_False; [done|]. by intros [_ ?].
  - rewrite with_stored. rewrite decide_False; [done|]. by intros [? _].
Qed.

Lemma clearSubscribers_completes key st :
  usable (keyToSubscribedClients st) (to_property_key key) →
  Forall (λ c, inherited (client_property_key c) = false)
    (subscribers st (to_property_key key)) →
  fst (SubscriberState.clearSubscribers key st) = Ok ()
  ∧ ∀ n, subscriptions (snd (SubscriberState.clearSubscribers key st)) n
         = if decide (n ∈ client_property_key
                            <$> subscribers st (to_property_key key))
           then filter (subscription_differs key) (subscriptions st n)
           else subscriptions st n.
Proof.
  intros Hu Hl. unfold SubscriberState.clearSubscribers.
  rewrite (with_usable _ _ Hu). fold (subscribers st (to_property_key key)).
  match goal with
  | |- context [SubscriberState.forEach ?l ?b ?s] =>
      pose proof (λ n, clear_loop_completes key l s n Hl) as Hloop;
      cbv zeta in Hloop;
      destruct (SubscriberState.forEach l b s) as [r st2]
  end.
  simpl in Hloop. destruct (Hloop "") as [-> _]. split; [done|].
  intros n. destruct (Hloop n) as [_ Hn]. exact Hn.
Qed.

Lemma clearSubscribers_no_new_empty key st k :
  (keyToSubscribedClients (snd (SubscriberState.clearSubscribers key st)) !! k
     = Some [] → keyToSubscribedClients st !! k = Some [])
  ∧ (clientsToSubscriptions (snd (SubscriberState.clearSubscribers key st))
       !! k = Some [] → clientsToSubscriptions st !! k = Some []).
Proof.
  destruct (decide (usable (keyToSubscribedClients st) (to_property_key key)))
    as [Hu|Hu]; [|by rewrite (clearSubscribers_unusable key st Hu)].
  unfold SubscriberState.clearSubscribers. rewrite (with_usable _ _ Hu).
  match goal with
  | |- context [SubscriberState.forEach ?l ?b ?s] =>
      destruct (clear_loop_rest key l s) as (Hk & _ & _);
      pose proof (clear_loop_no_new_empty key l s k) as Hc;
      cbv zeta in Hc;
      pose proof (forEach_nil_or_ok l b s) as Hnil;
      destruct (SubscriberState.forEach l b s) as [[[]|e] st2]
  end; simpl in *.
  - split; [|exact Hc]. rewrite Hk. unfold MapOfLists.removeAll.
    intros Hl. destruct (decide (to_property_key key = k)) as [<-|Hne].
    + by rewrite lookup_delete_eq in Hl.
    + rewrite lookup_delete_ne in Hl by done.
      by rewrite with_lookup_ne in Hl.
  - split; [|exact Hc]. rewrite Hk. intros Hl.
    destruct (decide (to_property_key key = k)) as [<-|Hne].
    + rewrite (with_lookup_eq _ _ Hu) in Hl. inversion Hl as [Hs].
      destruct (Hnil e eq_refl). exact Hs.
    + by rewrite with_lookup_ne in Hl.
Qed.

(** *** The disconnect handler *)

Lemma unlink_each_rest c (keys : list string) st :
  let st' := snd (SubscriberState.forEach keys
                    (λ K s, SubscriberState.unlinkSilently c K s) st) in
  clientsToSubscriptions st' = clientsToSubscriptions st
  ∧ data st' = data st ∧ sent st' = sent st.
Proof.
  revert st. induction keys as [|K keys IH]; intros st; simpl; [done|].
  destruct (unlinkSilently_rest c K st) as (Hc & Hd & Hs).
  destruct (SubscriberState.unlinkSilently c K st) as [[[]|e] st1];
    simpl in *; [|done].
  destruct (IH st1) as (-> & -> & ->). done.
Qed.

Lemma unlink_each_subscribers c (keys : list string) st k x :
  x ∈ subscribers
        (snd (SubscriberState.forEach keys
                (λ K s, SubscriberState.unlinkSilently c K s) st)) k →
  x ∈ subscribers st k.
Proof.
  revert st. induction keys as [|K keys IH]; intros st; simpl; [done|].
  pose proof (unlinkSilently_subscribers c K st k) as Hs.
  destruct (SubscriberState.unlinkSilently c K st) as [[[]|e] st1];
    simpl in *; intros Hx; [apply IH in Hx|]; rewrite Hs in Hx;
    (case_decide; subst; [|done]);
    by apply list_elem_of_filter in Hx as [_ ?].
Qed.

Lemma on_disconnect_unusable c st :
  ¬ usable (clientsToSubscriptions st) (client_property_key c) →
  SubscriberState.on_disconnect c st = (Throw TypeError, st).
Proof.
  intros Hu. unfold SubscriberState.on_disconnect.
  by destruct (with_unusable _ _ Hu) as [-> _].
Qed.

Lemma on_disconnect_usable c st :
  usable (clientsToSubscriptions st) (client_property_key c) →
  SubscriberState.on_disconnect c st
  = SubscriberState.forEach (subscriptions st (client_property_key c))
      (λ K s, SubscriberState.unlinkSilently c K s)
      (set_clientsToSubscriptions
         (fst (MapOfLists.with_ (client_property_key c)
                 (clientsToSubscriptions st))) st).
Proof.
  intros Hu. unfold SubscriberState.on_disconnect.
  by rewrite (with_usable _ _ Hu).
Qed.

Lemma on_disconnect_rest c st :
  data (snd (SubscriberState.on_disconnect c st)) = data st
  ∧ sent (snd (SubscriberState.on_disconnect c st)) = sent st.
Proof.
  destruct (decide (usable (clientsToSubscriptions st)
                      (client_property_key c))) as [Hu|Hu].
  - rewrite (on_disconnect_usable c st Hu).
    match goal with
    | |- context [SubscriberState.forEach ?l _ ?s] =>
        by destruct (unlink_each_rest c l s) as (_ & -> & ->)
    end.
  - by rewrite (on_disconnect_unusable c st Hu).
Qed.

Lemma on_disconnect_subscribers c st k x :
  x ∈ subscribers (snd (SubscriberState.on_disconnect c st)) k →
  x ∈ subscribers st k.
Proof.
  destruct (decide (usable (clientsToSubscriptions st)
                      (client_property_key c))) as [Hu|Hu].
  - rewrite (on_disconnect_usable c st Hu). intros Hx.
    by apply unlink_each_subscribers in Hx.
  - by rewrite (on_disconnect_unusable c st Hu).
Qed.
End Loops.
(** ** Deliveries *)

Section Delivery_facts.
Context {T : Transport} {C : Codec} {H : Host}.
Implicit Types (st : state) (c : client) (K k : string) (m : message).

Lemma received_app c (l1 l2 : list (client * message)) :
  received c (l1 ++ l2) = received c l1 ++ received c l2.
Proof. unfold received. by rewrite filter_app, fmap_app. Qed.

Lemma received_broadcast c m (l : list client) :
  received c (broadcast m l) = replicate (registrations c l) m.
Proof.
  unfold received, broadcast, registrations.
  induction l as [|x l IH]; [done|].
  simpl. rewrite !filter_cons. simpl.
  destruct (decide (x = c)); simpl; [f_equal|]; exact IH.
Qed.

Lemma registrations_absent c (l : list client) :
  c ∉ l → registrations c l = 0.
Proof.
  unfold registrations. induction l as [|x l IH]; [done|].
  intros Hc. apply not_elem_of_cons in Hc as [Hne Hc].
  rewrite filter_cons. destruct (decide (x = c)); [congruence|]. by apply IH.
Qed.

Lemma registrations_present c (l : list client) :
  c ∈ l → 0 < registrations c l.
Proof.
  unfold registrations. induction l as [|x l IH]; [by inversion 1|].
  intros Hc. rewrite filter_cons.
  destruct (decide (x = c)); simpl; [lia|].
  apply elem_of_cons in Hc as [->|Hc]; [done|]. by apply IH.
Qed.

Lemma registrations_app c (l1 l2 : list client) :
  registrations c (l1 ++ l2) = registrations c l1 + registrations c l2.
Proof. unfold registrations. by rewrite filter_app, length_app. Qed.

Lemma registrations_self c : registrations c [c] = 1.
Proof.
  unfold registrations. rewrite filter_cons.
  by destruct (decide (c = c)).
Qed.

Lemma typeof_undefined (v : jsval) : typeof v = TUndefined ↔ v = VUndefined.
Proof. split; [by destruct v|by intros ->]. Qed.

(** The message built for a change carries [path[0]] as its key. *)
Lemma change_message_key ch (d : table) m :
  change_message ch d = Ok m → msg_key m = path_head ch.
Proof.
  unfold change_message, changeTypes, updateFromPath, insertStyleUpdate.
  case_decide.
  - by intros [= <-].
  - destruct (c_type ch); try (case_decide; by intros [= <-]);
      destruct (withPath _ _); by intros [= <-].
Qed.

(** It is a [finalize] exactly for a [delete] whose path has one segment. *)
Lemma change_message_finalize ch (d : table) m :
  change_message ch d = Ok m →
  msg_op m = op_finalize ↔ c_type ch = ct_delete ∧ length (c_path ch) = 1.
Proof.
  unfold change_message, changeTypes, updateFromPath, insertStyleUpdate.
  case_decide as Hroot.
  - by intros [= <-].
  - intros Hm. split; [|done]. intros Hop. exfalso.
    destruct (c_type ch); try (case_decide; by inversion Hm; subst);
      destruct (withPath _ _); by inversion Hm; subst.
Qed.

(** One change: either the translation throws and nothing happens, or its
    message goes once to each registration of [path[0]], and a [finalize]
    that runs to its end then empties that key. *)
Lemma on_change_effect ch st :
  match change_message ch (data st) with
  | Throw e => on_change ch st = (Throw e, st)
  | Ok m =>
      let st' := snd (on_change ch st) in
      sent st' = sent st
          ++ broadcast m (subscribers st (to_property_key (path_head ch)))
      ∧ data st' = data st
      ∧ ∀ k, subscribers st' k
             = if decide (fst (on_change ch st) = Ok ()
                          ∧ msg_op m = op_finalize
                          ∧ to_property_key (path_head ch) = k)
               then [] else subscribers st k
  end.
Proof.
  unfold on_change. destruct (change_message ch (data st)) as [m|e]; [|done].
  pose proof (sendObjectUpdate_sent (path_head ch) m st) as Hsent.
  pose proof (sendObjectUpdate_rest (path_head ch) m st) as [_ Hdata].
  pose proof (sendObjectUpdate_subscribers (path_head ch) m st) as Hsubs.
  destruct (SubscriberState.sendObjectUpdate (path_head ch) m st)
    as [[[]|e] st1]; simpl in *.
  - case_decide as Hop.
    + destruct (clearSubscribers_rest (path_head ch) st1) as (-> & ->).
      split; [done|]. split; [done|]. intros k.
      rewrite clearSubscribers_subscribers, Hsubs.
      destruct (decide (_ ∧ to_property_key (path_head ch) = k))
        as [[? ?]|Hno].
      * by rewrite decide_True.
      * rewrite decide_False; [done|]. intros (? & _ & ?). by apply Hno.
    + simpl. split; [done|]. split; [done|]. intros k.
      rewrite Hsubs, decide_False; [done|]. by intros (_ & ? & _).
  - split; [done|]. split; [done|]. intros k. by rewrite Hsubs.
Qed.

(** When it runs to its end. *)
Lemma on_change_ok ch st m :
  change_message ch (data st) = Ok m →
  usable (keyToSubscribedClients st) (to_property_key (path_head ch)) →
  (msg_op m = op_finalize →
   Forall (λ c, inherited (client_property_key c) = false)
     (subscribers st (to_property_key (path_head ch)))) →
  fst (on_change ch st) = Ok ().
Proof.
  intros Hm Hu Hl. unfold on_change. rewrite Hm.
  pose proof (sendObjectUpdate_usable_after (path_head ch) m st Hu) as Hu'.
  pose proof (sendObjectUpdate_subscribers (path_head ch) m st) as Hsubs.
  rewrite (sendObjectUpdate_usable (path_head ch) m st Hu) in *.
  simpl in *. case_decide as Hop; [|done].
  apply clearSubscribers_completes; [done|]. rewrite Hsubs. by apply Hl.
Qed.

Lemma on_change_sent_extends ch st :
  ∃ later, sent (snd (on_change ch st)) = sent st ++ later.
Proof.
  pose proof (on_change_effect ch st) as He.
  destruct (change_message ch (data st)) as [m|e].
  - destruct He as (-> & _). eauto.
  - rewrite He. exists []. by rewrite app_nil_r.
Qed.

Lemma observe_sent_extends chs st :
  ∃ later, sent (snd (observe chs st)) = sent st ++ later.
Proof.
  revert st. induction chs as [|ch chs IH]; intros st; simpl.
  - exists []. by rewrite app_nil_r.
  - destruct (on_change_sent_extends ch st) as [l1 H1].
    destruct (on_change ch st) as [[[]|e] st1]; simpl in *.
    + destruct (IH st1) as [l2 ->]. rewrite H1, <- app_assoc. eauto.
    + eauto.
Qed.

Lemma step_sent_extends ev st :
  ∃ later, sent (snd (step ev st)) = sent st ++ later.
Proof.
  destruct ev as [c key|c key|c|d chs].
  - change (step (Link c key) st) with (link c key st).
    unfold link. case_decide.
    + exists []. by rewrite app_nil_r.
    + rewrite link_sent. case_decide; [eauto|].
      exists []. by rewrite app_nil_r.
  - change (step (Unlink c key) st)
      with (SubscriberState.unlink c key st).
    rewrite unlink_sent. case_decide; [eauto|].
    exists []. by rewrite app_nil_r.
  - change (step (Disconnect c) st)
      with (SubscriberState.on_disconnect c st).
    destruct (on_disconnect_rest c st) as (_ & ->).
    exists []. by rewrite app_nil_r.
  - apply (observe_sent_extends chs (set_data d st)).
Qed.

(** The log only grows. *)
Lemma run_sent_extends evs st :
  ∃ later, sent (run evs st) = sent st ++ later.
Proof.
  revert st. induction evs as [|ev evs IH]; intros st; simpl.
  - exists []. by rewrite app_nil_r.
  - destruct (step_sent_extends ev st) as [l1 H1].
    destruct (IH (snd (step ev st))) as [l2 H2].
    unfold run in *. rewrite H2, H1, <- app_assoc. eauto.
Qed.
End Delivery_facts.

(** ** A client that is not registered for a key hears nothing about it *)

Section Quiet_facts.
Context {T : Transport} {C : Codec} {H : Host}.
Implicit Types (st : state) (c : client) (K k : string) (m : message).

Lemma nothing_about_refl K c (log : list (client * message)) :
  nothing_about K c log log.
Proof. exists []. by rewrite app_nil_r. Qed.

Lemma nothing_about_trans K c (l1 l2 l3 : list (client * message)) :
  nothing_about K c l1 l2 → nothing_about K c l2 l3 → nothing_about K c l1 l3.
Proof.
  intros (m1 & E1 & F1) (m2 & E2 & F2). exists (m1 ++ m2).
  split; [by rewrite E2, E1, app_assoc|]. by apply Forall_app.
Qed.

Lemma nothing_about_other K c c' m (log : list (client * message)) :
  c' ≠ c → nothing_about K c log (log ++ [(c', m)]).
Proof.
  intros Hne. exists []. rewrite received_app, app_nil_r.
  unfold received at 2. rewrite filter_cons. simpl.
  rewrite decide_False by done. by rewrite app_nil_r.
Qed.

Lemma nothing_about_unrelated K c c' m (log : list (client * message)) :
  ¬ about K m → nothing_about K c log (log ++ [(c', m)]).
Proof.
  intros Hm. destruct (decide (c' = c)) as [->|Hne].
  - exists [m]. rewrite received_app. split; [|by constructor].
    f_equal. unfold received. rewrite filter_cons. simpl.
    by rewrite decide_True.
  - by apply nothing_about_other.
Qed.

Lemma quiet_on_change c K ch st :
  c ∉ subscribers st K →
  (c ∉ subscribers (snd (on_change ch st)) K)
  ∧ nothing_about K c (sent st) (sent (snd (on_change ch st))).
Proof.
  intros Hc. pose proof (on_change_effect ch st) as He.
  destruct (change_message ch (data st)) as [m|e] eqn:Em.
  - destruct He as (Hsent & _ & Hsubs). split.
    + rewrite Hsubs. destruct (decide (_ ∧ _)); [apply not_elem_of_nil|done].
    + rewrite Hsent.
      exists (replicate
                (registrations c
                   (subscribers st (to_property_key (path_head ch)))) m).
      rewrite received_app, received_broadcast. split; [done|].
      destruct (decide (to_property_key (path_head ch) = K)) as [<-|Hne].
      * by rewrite registrations_absent.
      * apply Forall_replicate. unfold about.
        by rewrite (change_message_key _ _ _ Em).
  - rewrite He. split; [done|]. apply nothing_about_refl.
Qed.

Lemma quiet_observe c K chs st :
  c ∉ subscribers st K →
  (c ∉ subscribers (snd (observe chs st)) K)
  ∧ nothing_about K c (sent st) (sent (snd (observe chs st))).
Proof.
  revert st. induction chs as [|ch chs IH]; intros st Hc; simpl.
  - split; [done|]. apply nothing_about_refl.
  - destruct (quiet_on_change c K ch st Hc) as [Hc1 Hn1].
    destruct (on_change ch st) as [[[]|e] st1]; simpl in *; [|done].
    destruct (IH st1 Hc1) as [Hc2 Hn2]. split; [done|].
    by eapply nothing_about_trans.
Qed.

Lemma quiet_step c K ev st :
  quiet c K ev →
  c ∉ subscribers st K →
  (c ∉ subscribers (snd (step ev st)) K)
  ∧ nothing_about K c (sent st) (sent (snd (step ev st))).
Proof.
  intros Hq Hc. destruct ev as [c' K'|c' K'|c'|d chs].
  - change (step (Link c' K') st) with (link c' K' st).
    simpl in Hq. unfold link. case_decide.
    + split; [done|]. apply nothing_about_refl.
    + split.
      * rewrite link_subscribers.
        destruct (decide (K' = K ∧ _)) as [[-> _]|_]; [|done].
        rewrite elem_of_app, list_elem_of_singleton.
        intros [?|E]; [done|]. apply Hq. by split.
      * rewrite link_sent. case_decide; [|apply nothing_about_refl].
        destruct (decide (c' = c)) as [->|Hne].
        -- apply nothing_about_unrelated. unfold about. simpl.
           intros E. apply Hq. by split.
        -- by apply nothing_about_other.
  - change (step (Unlink c' K') st)
      with (SubscriberState.unlink c' K' st).
    split.
    + rewrite unlink_subscribers. case_decide; subst; [|done].
      rewrite list_elem_of_filter. by intros [_ ?].
    + rewrite unlink_sent. simpl in Hq.
      case_decide; [|apply nothing_about_refl].
      destruct (decide (c' = c)) as [->|Hne].
      * apply nothing_about_unrelated. unfold about. simpl.
           intros E. apply Hq. by split.
      * by apply nothing_about_other.
  - change (step (Disconnect c') st)
      with (SubscriberState.on_disconnect c' st).
    split.
    + intros Hin. by apply on_disconnect_subscribers in Hin.
    + destruct (on_disconnect_rest c' st) as (_ & ->).
      apply nothing_about_refl.
  - apply (quiet_observe c K chs (set_data d st)). done.
Qed.

Lemma quiet_run c K evs st :
  Forall (quiet c K) evs →
  c ∉ subscribers st K →
  (c ∉ subscribers (run evs st) K)
  ∧ nothing_about K c (sent st) (sent (run evs st)).
Proof.
  intros Hq. revert st. induction Hq as [|ev evs Hev _ IH]; intros st Hc.
  - split; [done|]. apply nothing_about_refl.
  - destruct (quiet_step c K ev st Hev Hc) as [Hc1 Hn1].
    destruct (IH _ Hc1) as [Hc2 Hn2].
    split; [done|]. by eapply nothing_about_trans.
Qed.
End Quiet_facts.

(** ** Reading properties *)

Lemma own_property_app name (a b : list (string * jsval)) :
  own_property name (a ++ b)
  = match own_property name a with
    | Some v => Some v
    | None => own_property name b
    end.
Proof.
  induction a as [|[k v] a IH]; simpl; [done|]. by case_decide.
Qed.

Lemma own_property_members name (l : list string) :
  name ∉ l → own_property name ((λ n, (n, VFun)) <$> l) = None.
Proof.
  induction l as [|k l IH]; simpl; [done|].
  rewrite not_elem_of_cons. intros [Hne Hl].
  rewrite decide_False by done. by apply IH.
Qed.

Lemma not_inherited_member name :
  inherited name = false → inherited_member name = None.
Proof.
  unfold inherited, inherited_member. intros Hn.
  apply bool_decide_eq_false in Hn.
  case_decide as Hp.
  - subst name. destruct Hn. by eexists.
  - destruct (own_property name Object_prototype) eqn:E; [|done].
    destruct Hn. by eexists.
Qed.

Lemma object_get_absent fields name :
  own_property name fields = None → inherited name = false →
  object_get fields name = VUndefined.
Proof.
  intros Ho Hn. unfold object_get.
  by rewrite Ho, (not_inherited_member name Hn).
Qed.

Section Reading_facts.
Context {H : Host}.

(** A name that is neither a key of the table, nor a method of the
    observable root, nor inherited reads as [undefined]. *)
Lemma data_get_absent (d : table) name :
  own_property name d = None →
  inherited name = false →
  name ∉ observable_members →
  data_get d name = VUndefined.
Proof.
  intros Ho Hn Hm. apply object_get_absent; [|done].
  by rewrite own_property_app, Ho, own_property_members.
Qed.

(** A key of the table reads as its value. *)
Lemma data_get_own (d : table) name v :
  own_property name d = Some v → data_get d name = v.
Proof.
  intros Ho. unfold data_get, object_get.
  by rewrite own_property_app, Ho.
Qed.
End Reading_facts.

(** ** The codec model meets the codec contract *)

Lemma sejr_round_trip (v : jsval) : sejr_realize (sejr_describe v) = scrub v.
Proof.
  revert v. fix IH 1.
  intros [ | | b | n | s | | items | fields]; simpl; try done.
  - f_equal. induction items as [|x xs IHxs]; simpl; [done|].
    by rewrite IH, IHxs.
  - f_equal. induction fields as [|[k x] fs IHfs]; simpl; [done|].
    by rewrite IH, IHfs.
Qed.

Lemma sejr_contract : CodecContract sejr.
Proof. intros v. apply sejr_round_trip. Qed.

(** ** link *)

Section Link.
Context {T : Transport} {C : Codec} {H : Host}.
Implicit Types (st : state) (c : client) (K : string).

Lemma not_inherited_usable {A} (m : gmap string (list A)) K :
  inherited K = false → usable m K.
Proof. intros ?. by right. Qed.

(** X23: when [K] is not a key of the table, nor a name the observable root
    answers to by itself or by inheritance, [link(c, K)] throws the
    no-such-key error and leaves the whole state as it was: nobody is
    registered, nothing is sent, the table is untouched. *)
Theorem link_missing_key_fails st c K :
  own_property K (data st) = None →
  inherited K = false →
  K ∉ observable_members →
  link c K st = (Throw (NoSuchKey K), st).
Proof.
  intros Ho Hn Hm. unfold link. rewrite decide_True; [done|].
  apply typeof_undefined. by apply data_get_absent.
Qed.

(** X24: when [data[K]] is defined and neither [K] nor the client's id is a
    name every object inherits, [link(c, K)] succeeds, appends [c] to the
    clients of [K] and [K] to the subscriptions of [c], and hands the
    transport exactly one message for [c]: an [init] for [K] whose value is
    the encoded current value, which decodes to that value with
    unrepresentable members replaced by [undefined].  Everything sent
    afterwards comes after it in the log. *)
Theorem link_defined_key_sends_init st c K :
  CodecContract C →
  data_get (data st) K ≠ VUndefined →
  inherited K = false →
  inherited (transport_id c) = false →
  ∃ st1,
    link c K st = (Ok (), st1)
    ∧ subscribers st1 K = subscribers st K ++ [c]
    ∧ subscriptions st1 (transport_id c)
      = subscriptions st (transport_id c) ++ [K]
    ∧ data st1 = data st
    ∧ sent st1 = sent st ++ [(c, init_message K (data_get (data st) K))]
    ∧ deserialize (serialize (data_get (data st) K))
      = scrub (data_get (data st) K)
    ∧ ∀ evs, ∃ later,
        sent (run evs st1)
        = sent st ++ (c, init_message K (data_get (data st) K)) :: later.
Proof.
  intros Hcodec Hd HK Hc.
  destruct (link_usable c K st) as (st1 & E & Hdata & Hsent & Hsubs & Hsubn).
  { by apply not_inherited_usable. }
  { by apply not_inherited_usable. }
  exists st1. split.
  { unfold link. rewrite decide_False; [done|]. by rewrite typeof_undefined. }
  split. { by rewrite Hsubs, decide_True. }
  split. { by rewrite Hsubn, decide_True. }
  split; [done|]. split; [done|]. split; [apply Hcodec|].
  intros evs. destruct (run_sent_extends evs st1) as [later ->].
  exists later. rewrite Hsent. by rewrite <- app_assoc.
Qed.
End Link.

Lemma link_missing_key_fails_witness :
  own_property "foo" (data (@initial fake_transport sejr)) = None
  ∧ inherited "foo" = false
  ∧ ("foo" ∉ @observable_members scenario_host)
  ∧ link (H := scenario_host) client1 "foo" (@initial fake_transport sejr)
    = (Throw (NoSuchKey "foo"), initial).
Proof.
  assert ("foo" ∉ @observable_members scenario_host) as Hm.
  { simpl. rewrite list_elem_of_singleton. discriminate. }
  split; [reflexivity|]. split; [reflexivity|]. split; [exact Hm|].
  apply (@link_missing_key_fails fake_transport sejr scenario_host
           initial client1 "foo").
  - reflexivity.
  - reflexivity.
  - exact Hm.
Defined.

Lemma link_defined_key_sends_init_witness :
  let st := @run fake_transport sejr scenario_host
              [Mutate foo_abc [set_foo]] initial in
  data_get (H := scenario_host) (data st) "foo" ≠ VUndefined
  ∧ ∃ st1,
      link (H := scenario_host) client1 "foo" st = (Ok (), st1)
      ∧ subscribers st1 "foo" = subscribers st "foo" ++ [client1]
      ∧ subscriptions st1 "client1" = subscriptions st "client1" ++ ["foo"]
      ∧ data st1 = data st
      ∧ sent st1 = sent st ++ [(client1, init_message "foo" (VStr "abc"))]
      ∧ sejr_realize (sejr_describe (VStr "abc")) = VStr "abc"
      ∧ ∀ evs, ∃ later,
          sent (run (H := scenario_host) evs st1)
          = sent st ++ (client1, init_message "foo" (VStr "abc")) :: later.
Proof.
  split; [discriminate|].
  apply (@link_defined_key_sends_init fake_transport sejr scenario_host
           (run [Mutate foo_abc [set_foo]] initial) client1 "foo").
  - exact sejr_contract.
  - discriminate.
  - reflexivity.
  - reflexivity.
Defined.

(** C3: the guard of [link] reads [data[K]] through everything the
    observable root answers to, not only the keys of the table.  On a fresh
    engine the table has neither ['toString'] nor ['observe'], yet
    [link(client1, 'toString')] fails with a type error from the registry
    instead of the no-such-key error, and [link(client1, 'observe')]
    succeeds: [client1] is registered under ['observe'] and is sent an
    [init] for it. *)
Theorem link_guard_sees_inherited_names :
  let st := @initial fake_transport sejr in
  own_property "toString" (data st) = None
  ∧ own_property "observe" (data st) = None
  ∧ link (H := scenario_host) client1 "toString" st = (Throw TypeError, st)
  ∧ ∃ st1,
      link (H := scenario_host) client1 "observe" st = (Ok (), st1)
      ∧ subscribers st1 "observe" = [client1]
      ∧ subscriptions st1 "client1" = ["observe"]
      ∧ sent st1 = [(client1, init_message "observe" VFun)].
Proof.
  split; [reflexivity|]. split; [reflexivity|]. split; [reflexivity|].
  eexists. split; [reflexivity|]. by vm_compute.
Qed.

(** C4: the registry keeps its lists in a plain object, so a key that is
    also a name every object inherits finds the inherited member in place
    of a list.  With [data.constructor = 'abc'] the key has a defined
    value, yet [link(client1, 'constructor')] throws a type error:
    [client1] is not registered and no [init] is sent. *)
Theorem link_inherited_name_throws :
  let st := @run fake_transport sejr scenario_host
              [Mutate [("constructor", VStr "abc")]
                 [Change ct_insert [Field "constructor"] (VStr "abc")]]
              initial in
  data_get (H := scenario_host) (data st) "constructor" = VStr "abc"
  ∧ link (H := scenario_host) client1 "constructor" st = (Throw TypeError, st)
  ∧ subscribers st "constructor" = []
  ∧ subscriptions st "client1" = []
  ∧ sent st = [].
Proof. by vm_compute. Qed.
(** ** The change translator *)

Section Translator_facts.
Context {T : Transport} {C : Codec} {H : Host}.
Implicit Types (st : state) (ch : change) (d : table).

(** C6: for a [shuffle] or [reverse] record whose path can be read in the
    live table, the translator builds one [update] message with
    [key = path[0]], [path = path.slice(1)] and the encoded value found at
    the record's path; the observer sends that one message to the
    registrations of [path[0]], and runs to its end whenever the registry
    can hold a list under [path[0]]. *)
Theorem reorder_sends_resnapshot st ch v :
  c_type ch = ct_shuffle ∨ c_type ch = ct_reverse →
  withPath (observable (data st)) (c_path ch) = Ok v →
  let m := {| msg_op := op_update;
              msg_key := head (c_path ch);
              msg_path := Some (tail (c_path ch));
              msg_value := Some (serialize v) |} in
  changeTypes (c_type ch) ch (data st) = Ok m
  ∧ change_message ch (data st) = Ok m
  ∧ sent (snd (on_change ch st))
    = sent st
        ++ broadcast m (subscribers st (to_property_key (head (c_path ch))))
  ∧ (usable (keyToSubscribedClients st)
       (to_property_key (head (c_path ch))) →
     fst (on_change ch st) = Ok ()).
Proof.
  intros Hty Hv m.
  assert (changeTypes (c_type ch) ch (data st) = Ok m) as Hm.
  { destruct Hty as [-> | ->]; simpl; unfold updateFromPath; by rewrite Hv. }
  assert (change_message ch (data st) = Ok m) as Hcm.
  { unfold change_message. rewrite decide_False; [done|].
    intros [Hd _]. destruct Hty; congruence. }
  split; [done|]. split; [done|].
  pose proof (on_change_effect ch st) as He. rewrite Hcm in He.
  destruct He as (Hsent & _). split; [done|].
  intros Hu. by apply (on_change_ok ch st m).
Qed.

(** C7: for an [insert], [update] or [delete] record of the store (whose
    [delete] records carry the old value and no [value]) the translator
    builds a message whose op is spelled like the record's type, with
    [key = path[0]] and [path = path.slice(1)]; the value property is the
    encoded [value] of an [insert] or [update] record when that value is
    defined, and is absent when it is not and on every [delete] message.
    The observer uses this message unless the record is a [delete] with a
    path of length one. *)
Theorem insert_style_message ch d :
  c_type ch = ct_insert ∨ c_type ch = ct_update ∨ c_type ch = ct_delete →
  (c_type ch = ct_delete → c_value ch = VUndefined) →
  ∃ m,
    changeTypes (c_type ch) ch d = Ok m
    ∧ (¬ (c_type ch = ct_delete ∧ length (c_path ch) = 1) →
       change_message ch d = Ok m)
    ∧ msg_op m = opcode_of (c_type ch)
    ∧ msg_key m = head (c_path ch)
    ∧ msg_path m = Some (tail (c_path ch))
    ∧ (c_value ch ≠ VUndefined →
       msg_value m = Some (serialize (c_value ch)))
    ∧ (c_value ch = VUndefined → msg_value m = None)
    ∧ (c_type ch = ct_delete → msg_value m = None).
Proof.
  intros Hty Hstore.
  exists (insertStyleUpdate (opcode_of (c_type ch)) ch).
  split. { by destruct Hty as [-> | [-> | ->]]. }
  split.
  { intros Hroot. unfold change_message. rewrite decide_False; [|done].
    by destruct Hty as [-> | [-> | ->]]. }
  unfold insertStyleUpdate, path_head, path_rest.
  split. { by case_decide. }
  split. { by case_decide. }
  split. { by case_decide. }
  assert (c_value ch = VUndefined →
          msg_value
            (if decide (typeof (c_value ch) ≠ TUndefined)
             then {| msg_op := opcode_of (c_type ch);
                     msg_key := head (c_path ch);
                     msg_path := Some (tail (c_path ch));
                     msg_value := Some (serialize (c_value ch)) |}
             else {| msg_op := opcode_of (c_type ch);
                     msg_key := head (c_path ch);
                     msg_path := Some (tail (c_path ch));
                     msg_value := None |}) = None) as Hnone.
  { intros ->. by rewrite decide_False by (by intros ?). }
  split.
  { intros Hv. rewrite decide_True; [done|]. by rewrite typeof_undefined. }
  split; [done|]. intros Hdel. by apply Hnone, Hstore.
Qed.
End Translator_facts.

Lemma reorder_sends_resnapshot_witness :
  let st := set_data foo_bar_abc
              (@run fake_transport sejr scenario_host
                 [Mutate foo_bar_acb [set_foo_bar]; Link client1 "foo"]
                 initial) in
  let m : @message sejr :=
    {| msg_op := op_update;
       msg_key := Some (Field "foo");
       msg_path := Some [Field "bar"];
       msg_value := Some (serialize (VArr [VStr "a"; VStr "b"; VStr "c"])) |} in
  (c_type sort_foo_bar = ct_shuffle ∨ c_type sort_foo_bar = ct_reverse)
  ∧ withPath (H := scenario_host) (observable (H := scenario_host) (data st))
      (c_path sort_foo_bar)
    = Ok (VArr [VStr "a"; VStr "b"; VStr "c"])
  ∧ changeTypes (H := scenario_host) ct_shuffle sort_foo_bar (data st) = Ok m
  ∧ change_message (H := scenario_host) sort_foo_bar (data st) = Ok m
  ∧ sent (snd (on_change (H := scenario_host) sort_foo_bar st))
    = sent st ++ broadcast m [client1]
  ∧ (usable (keyToSubscribedClients st) "foo" →
     fst (on_change (H := scenario_host) sort_foo_bar st) = Ok ()).
Proof.
  split; [by left|]. split; [reflexivity|].
  apply (@reorder_sends_resnapshot fake_transport sejr scenario_host
           (set_data foo_bar_abc
              (run [Mutate foo_bar_acb [set_foo_bar]; Link client1 "foo"]
                 initial))
           sort_foo_bar
           (VArr [VStr "a"; VStr "b"; VStr "c"])).
  - by left.
  - reflexivity.
Defined.

Lemma insert_style_message_witness :
  let ch := Change ct_delete [Field "foo"; Field "abc"] VUndefined in
  (c_type ch = ct_insert ∨ c_type ch = ct_update ∨ c_type ch = ct_delete)
  ∧ (c_type ch = ct_delete → c_value ch = VUndefined)
  ∧ ∃ m : @message sejr,
      changeTypes (H := scenario_host) ct_delete ch foo_abc = Ok m
      ∧ (¬ (c_type ch = ct_delete ∧ length (c_path ch) = 1) →
         change_message (H := scenario_host) ch foo_abc = Ok m)
      ∧ msg_op m = op_delete
      ∧ msg_key m = Some (Field "foo")
      ∧ msg_path m = Some [Field "abc"]
      ∧ (c_value ch ≠ VUndefined →
         msg_value m = Some (serialize (c_value ch)))
      ∧ (c_value ch = VUndefined → msg_value m = None)
      ∧ (c_type ch = ct_delete → msg_value m = None).
Proof.
  split; [by right; right|]. split; [done|].
  apply (@insert_style_message sejr scenario_host
           (Change ct_delete [Field "foo"; Field "abc"] VUndefined) foo_abc).
  - by right; right.
  - done.
Defined.
(** ** unlink, root deletion and repeated link *)

Section Lifecycle.
Context {T : Transport} {C : Codec} {H : Host}.
Implicit Types (st : state) (c : client) (K : string).

Lemma subscriber_usable st c K :
  c ∈ subscribers st K → usable (keyToSubscribedClients st) K.
Proof.
  unfold subscribers, stored. intros Hin. left.
  destruct (keyToSubscribedClients st !! K); [done|].
  by apply not_elem_of_nil in Hin.
Qed.

Lemma link_ok_usable st c K :
  fst (link c K st) = Ok () →
  link c K st = SubscriberState.link c K st
  ∧ usable (keyToSubscribedClients st) K
  ∧ usable (clientsToSubscriptions st) (transport_id c).
Proof.
  unfold link. case_decide; [done|]. intros Hok. split; [done|].
  rewrite link_fst in Hok. by case_decide.
Qed.


(** C1, as the code has it: when the root value at [K] is deleted while
    [c] is registered for [K], and no client registered for [K] has a
    handle that reads as an inherited name, the observer hands [c] one
    [finalize] for [K] per registration of [c] for [K] (exactly one for a
    client that linked once) and empties the clients of [K].  After that,
    through the rest of the batch and any later events short of [c] itself
    calling [link] or [unlink] for [K], [c] is handed no message about
    [K], whatever the table becomes. *)
Theorem root_deletion_finalizes st c K v chs evs :
  c ∈ subscribers st K →
  Forall (λ c', inherited (client_property_key c') = false)
    (subscribers st K) →
  Forall (quiet c K) evs →
  ∃ st1,
    on_change (Change ct_delete [Field K] v) st = (Ok (), st1)
    ∧ sent st1
      = sent st ++ broadcast (finalize_message (Some (Field K)))
                     (subscribers st K)
    ∧ received c (sent st1)
      = received c (sent st)
          ++ replicate (registrations c (subscribers st K))
               (finalize_message (Some (Field K)))
    ∧ 1 ≤ registrations c (subscribers st K)
    ∧ subscribers st1 K = []
    ∧ nothing_about K c (sent st1)
        (sent (run evs (snd (observe chs st1)))).
Proof.
  intros Hin Hnames Hq. set (ch := Change ct_delete [Field K] v).
  pose proof (on_change_effect ch st) as He.
  assert (change_message ch (data st)
          = Ok (finalize_message (Some (Field K)))) as Hm by done.
  rewrite Hm in He. cbv zeta in He. destruct He as (Hsent & _ & Hsubs).
  assert (fst (on_change ch st) = Ok ()) as Hok.
  { apply (on_change_ok ch st _ Hm); [|done].
    by apply (subscriber_usable st c). }
  exists (snd (on_change ch st)).
  assert (subscribers (on_change ch st).2 K = []) as Hnil.
  { rewrite Hsubs. by rewrite decide_True. }
  split. { destruct (on_change ch st) as [r st']. simpl in *. by subst r. }
  split; [done|].
  split. { rewrite Hsent, received_app. by rewrite received_broadcast. }
  split. { by apply registrations_present. }
  split; [done|].
  assert (c ∉ subscribers (on_change ch st).2 K) as Hc.
  { rewrite Hnil. apply not_elem_of_nil. }
  destruct (quiet_observe c K chs _ Hc) as [Hc1 Hn1].
  destruct (quiet_run c K evs _ Hq Hc1) as [_ Hn2].
  by eapply nothing_about_trans.
Qed.

(** C10: a [link(c, K)] that succeeds adds one more registration of [c]
    for [K], whether or not [c] was registered, and hands [c] one more
    [init].  From then on a change under [K] hands its message to [c]
    once per registration: one more time than before the link, hence at
    least twice for a client that was already registered. *)
Theorem link_registers_again st c K :
  fst (link c K st) = Ok () →
  let st1 := snd (link c K st) in
  data_get (data st) K ≠ VUndefined
  ∧ subscribers st1 K = subscribers st K ++ [c]
  ∧ registrations c (subscribers st1 K)
    = S (registrations c (subscribers st K))
  ∧ received c (sent st1)
    = received c (sent st) ++ [init_message K (data_get (data st) K)]
  ∧ (c ∈ subscribers st K → 2 ≤ registrations c (subscribers st1 K))
  ∧ ∀ d' ch m,
      to_property_key (head (c_path ch)) = K →
      change_message ch d' = Ok m →
      received c (sent (snd (step (Mutate d' [ch]) st1)))
      = received c (sent st1)
          ++ replicate (S (registrations c (subscribers st K))) m.
Proof.
  intros Hok. destruct (link_ok_usable st c K Hok) as (E & HuK & Huc).
  assert (data_get (data st) K ≠ VUndefined) as Hd.
  { intros Hu. unfold link in Hok. rewrite decide_True in Hok; [done|].
    by apply typeof_undefined. }
  rewrite E. intros st1.
  assert (subscribers st1 K = subscribers st K ++ [c]) as Hsubs.
  { subst st1. by rewrite link_subscribers, decide_True. }
  assert (registrations c (subscribers st1 K)
          = S (registrations c (subscribers st K))) as Hreg.
  { rewrite Hsubs, registrations_app, registrations_self. lia. }
  split; [done|]. split; [done|]. split; [done|].
  split.
  { subst st1. rewrite link_sent, decide_True by done.
    rewrite received_app. f_equal.
    unfold received. rewrite filter_cons. simpl. by rewrite decide_True. }
  split.
  { intros Hin. rewrite Hreg. apply registrations_present in Hin. lia. }
  intros d' ch m Hk Hm.
  pose proof (on_change_effect ch (set_data d' st1)) as He.
  simpl in He. rewrite Hm in He. destruct He as (Hsent & _).
  assert (snd (step (Mutate d' [ch]) st1)
          = snd (on_change ch (set_data d' st1))) as ->.
  { simpl. by destruct (on_change ch (set_data d' st1)) as [[[]|e] st2]. }
  rewrite Hsent, received_app, received_broadcast.
  unfold path_head. rewrite Hk.
  change (subscribers (set_data d' st1) K) with (subscribers st1 K).
  by rewrite Hreg.
Qed.
End Lifecycle.


(** C1 as stated fails twice over.  A client that linked twice is handed two
    [finalize] messages when the root value is deleted; and a client that
    calls [unlink] after the [finalize] is handed a [closed] for the same
    key. *)
Lemma finalize_not_single_nor_last :
  let deleted := @run fake_transport sejr scenario_host
                   [Mutate [] [delete_foo]] in
  received client1 (sent (deleted linked_twice))
  = [init_message "foo" (VStr "abc"); init_message "foo" (VStr "abc");
     finalize_message (Some (Field "foo"));
     finalize_message (Some (Field "foo"))]
  ∧ received client1
      (sent (run (H := scenario_host) [Unlink client1 "foo"]
               (deleted linked_once)))
    = [init_message "foo" (VStr "abc");
       finalize_message (Some (Field "foo"));
       closed_message "foo"]
  ∧ about "foo" (@closed_message sejr "foo").
Proof. split; [|split]; reflexivity. Qed.

Lemma root_deletion_finalizes_witness :
  let evs := [Mutate foo_def [set_foo]; Link client1 "bar"] in
  client1 ∈ subscribers (set_data [] linked_once) "foo"
  ∧ Forall (λ c', inherited (client_property_key c') = false)
      (subscribers (set_data [] linked_once) "foo")
  ∧ Forall (quiet client1 "foo") evs
  ∧ ∃ st1,
      on_change (H := scenario_host)
        (Change ct_delete [Field "foo"] VUndefined)
        (set_data [] linked_once) = (Ok (), st1)
      ∧ sent st1
        = sent linked_once ++ broadcast (finalize_message (Some (Field "foo")))
                                [client1]
      ∧ received client1 (sent st1)
        = received client1 (sent linked_once)
            ++ replicate 1 (finalize_message (Some (Field "foo")))
      ∧ 1 ≤ 1
      ∧ subscribers st1 "foo" = []
      ∧ nothing_about "foo" client1 (sent st1)
          (sent (run (H := scenario_host) evs
                   (snd (observe (H := scenario_host) [update_foo] st1)))).
Proof.
  split; [by vm_compute; left|].
  split; [by vm_compute; repeat constructor|].
  split.
  { repeat constructor. simpl. intros [_ ?]. discriminate. }
  apply (@root_deletion_finalizes fake_transport sejr scenario_host
           (set_data [] linked_once)
           client1 "foo" VUndefined [update_foo]
           [Mutate foo_def [set_foo]; Link client1 "bar"]).
  - by vm_compute; left.
  - by vm_compute; repeat constructor.
  - repeat constructor. simpl. intros [_ ?]. discriminate.
Defined.

Lemma link_registers_again_witness :
  fst (link (H := scenario_host) client1 "foo" linked_once) = Ok ()
  ∧ let st1 := snd (link (H := scenario_host) client1 "foo" linked_once) in
    data_get (H := scenario_host) (data linked_once) "foo" ≠ VUndefined
    ∧ subscribers st1 "foo" = [client1; client1]
    ∧ registrations client1 (subscribers st1 "foo") = 2
    ∧ received client1 (sent st1)
      = received client1 (sent linked_once)
          ++ [init_message "foo" (VStr "abc")]
    ∧ (client1 ∈ subscribers linked_once "foo" →
       2 ≤ registrations client1 (subscribers st1 "foo"))
    ∧ ∀ d' ch m,
        to_property_key (head (c_path ch)) = "foo" →
        change_message (H := scenario_host) ch d' = Ok m →
        received client1
          (sent (snd (step (H := scenario_host) (Mutate d' [ch]) st1)))
        = received client1 (sent st1) ++ replicate 2 m.
Proof.
  split; [reflexivity|].
  apply (@link_registers_again fake_transport sejr scenario_host
           linked_once client1 "foo").
  reflexivity.
Defined.
(** ** Empty lists in the registry *)

Section Pruning.
Context {T : Transport} {C : Codec} {H : Host}.
Implicit Types (st : state) (c : client) (K : string).

Lemma link_no_new_empty c K st k :
  (keyToSubscribedClients (snd (SubscriberState.link c K st)) !! k = Some []
   → keyToSubscribedClients st !! k = Some [])
  ∧ (clientsToSubscriptions (snd (SubscriberState.link c K st)) !! k
       = Some []
     → clientsToSubscriptions st !! k = Some []).
Proof.
  unfold SubscriberState.link.
  pose proof (push_no_new_empty (keyToSubscribedClients st) K c k) as Hk.
  destruct (MapOfLists.push K c _) as [[[]|e] k2c]; simpl in *; [|done].
  pose proof (push_no_new_empty (clientsToSubscriptions st)
                (transport_id c) K k) as Hc.
  by destruct (MapOfLists.push (transport_id c) K _) as [[[]|e] c2s];
    simpl in *.
Qed.

Lemma unlinkSilently_keyToSubscribedClients c K st :
  keyToSubscribedClients (snd (SubscriberState.unlinkSilently c K st))
  = if decide (usable (keyToSubscribedClients st) K)
    then MapOfLists.set K (filter (λ e, e ≠ c) (subscribers st K))
           (keyToSubscribedClients st)
    else keyToSubscribedClients st.
Proof.
  case_decide as Hu.
  - by rewrite (unlinkSilently_usable c K st Hu).
  - by rewrite (unlinkSilently_unusable c K st Hu).
Qed.

Lemma unlink_keyToSubscribedClients c K st :
  keyToSubscribedClients (snd (SubscriberState.unlink c K st))
  = keyToSubscribedClients (snd (SubscriberState.unlinkSilently c K st)).
Proof.
  unfold SubscriberState.unlink.
  by destruct (SubscriberState.unlinkSilently c K st) as [[[]|e] st1].
Qed.

Lemma unlink_no_new_empty c K st k :
  (keyToSubscribedClients (snd (SubscriberState.unlink c K st)) !! k = Some []
   → keyToSubscribedClients st !! k = Some [])
  ∧ (clientsToSubscriptions (snd (SubscriberState.unlink c K st)) !! k
       = Some []
     → clientsToSubscriptions st !! k = Some []).
Proof.
  split.
  - rewrite unlink_keyToSubscribedClients, unlinkSilently_keyToSubscribedClients.
    case_decide; [apply set_no_new_empty|done].
  - by destruct (unlink_rest c K st) as (-> & _).
Qed.

Lemma root_deletion_shape K v st :
  on_change (Change ct_delete [Field K] v) st
  = match SubscriberState.sendObjectUpdate (Some (Field K))
            (finalize_message (Some (Field K))) st with
    | (Throw e, st1) => (Throw e, st1)
    | (Ok _, st1) => SubscriberState.clearSubscribers (Some (Field K)) st1
    end.
Proof. done. Qed.

Lemma root_deletion_removes_entry K v st :
  Forall (λ c, inherited (client_property_key c) = false)
    (subscribers st K) →
  keyToSubscribedClients
    (snd (on_change (Change ct_delete [Field K] v) st)) !! K = None.
Proof.
  intros Hnames. rewrite root_deletion_shape.
  destruct (decide (usable (keyToSubscribedClients st) K)) as [Hu|Hu].
  - pose proof (sendObjectUpdate_usable_after (Some (Field K))
                  (finalize_message (Some (Field K))) st Hu) as Hu'.
    pose proof (sendObjectUpdate_subscribers (Some (Field K))
                  (finalize_message (Some (Field K))) st K) as Hsubs.
    rewrite (sendObjectUpdate_usable (Some (Field K)) _ st Hu) in *.
    simpl in Hu', Hsubs.
    match goal with
    | |- context [SubscriberState.clearSubscribers ?k ?s] =>
        destruct (clearSubscribers_completes k s) as [Hok _];
        [exact Hu'|simpl; by rewrite Hsubs|];
        rewrite (clearSubscribers_keyToSubscribedClients k s), Hok
    end.
    rewrite decide_True by done. apply lookup_delete_eq.
  - rewrite (sendObjectUpdate_unusable (Some (Field K)) _ st Hu). simpl.
    by apply with_unusable in Hu as [_ ?].
Qed.

Lemma root_deletion_no_new_empty K v st k :
  (keyToSubscribedClients
     (snd (on_change (Change ct_delete [Field K] v) st)) !! k = Some []
   → keyToSubscribedClients st !! k = Some [])
  ∧ (clientsToSubscriptions
       (snd (on_change (Change ct_delete [Field K] v) st)) !! k = Some []
     → clientsToSubscriptions st !! k = Some []).
Proof.
  rewrite root_deletion_shape.
  destruct (decide (usable (keyToSubscribedClients st) K)) as [Hu|Hu];
    [|by rewrite (sendObjectUpdate_unusable (Some (Field K)) _ st Hu)].
  pose proof (sendObjectUpdate_usable_after (Some (Field K))
                (finalize_message (Some (Field K))) st Hu) as Hu'.
  pose proof (sendObjectUpdate_subscribers (Some (Field K))
                (finalize_message (Some (Field K))) st K) as Hsubs.
  pose proof (sendObjectUpdate_keyToSubscribedClients (Some (Field K))
                (finalize_message (Some (Field K))) st) as Hk2c.
  destruct (sendObjectUpdate_rest (Some (Field K))
              (finalize_message (Some (Field K))) st) as [Hc2s _].
  rewrite (sendObjectUpdate_usable (Some (Field K)) _ st Hu) in *.
  change (to_property_key (Some (Field K))) with K in *.
  cbn [snd] in *.
  set (st1 := foldl _ _ _) in *.
  destruct (clearSubscribers_no_new_empty (Some (Field K)) st1 k)
    as [Hk Hc].
  split; [|by rewrite <- Hc2s].
  intros Hl. specialize (Hk Hl). rewrite Hk2c in Hk.
  destruct (decide (K = k)) as [<-|Hne];
    [|by rewrite with_lookup_ne in Hk].
  destruct (keyToSubscribedClients st !! K) as [l|] eqn:El.
  - unfold MapOfLists.with_ in Hk. rewrite El in Hk. simpl in Hk.
    by rewrite El in Hk.
  - exfalso.
    assert (subscribers st1 K = []) as Hnil.
    { rewrite Hsubs. unfold subscribers, stored. by rewrite El. }
    destruct (clearSubscribers_completes (Some (Field K)) st1) as [Hok _];
      [exact Hu'|simpl; by rewrite Hnil|].
    rewrite (clearSubscribers_keyToSubscribedClients (Some (Field K)) st1),
      Hok, decide_True in Hl by done.
    unfold MapOfLists.removeAll in Hl. simpl in Hl.
    by rewrite lookup_delete_eq in Hl.
Qed.

(** C9, as the code has it: [MapOfLists.set] never stores an empty list
    and [removeAll] drops the entry, so [link], [unlink] and a root
    deletion add no empty list to either map: an empty list found
    afterwards was there before.  An [unlink] that removes the last client
    of a key removes the key's entry, and so does a root deletion.
    [MapOfLists.with] creates what it does not find: a broadcast to a key
    absent from the map, and that no object inherits, stores an empty list
    there. *)
Theorem removals_prune_empty_lists st :
  (∀ c K k,
     (keyToSubscribedClients (snd (link c K st)) !! k = Some []
      → keyToSubscribedClients st !! k = Some [])
     ∧ (clientsToSubscriptions (snd (link c K st)) !! k = Some []
        → clientsToSubscriptions st !! k = Some []))
  ∧ (∀ c K k,
       (keyToSubscribedClients (snd (unlink c K st)) !! k = Some []
        → keyToSubscribedClients st !! k = Some [])
       ∧ (clientsToSubscriptions (snd (unlink c K st)) !! k = Some []
          → clientsToSubscriptions st !! k = Some []))
  ∧ (∀ K v k,
       (keyToSubscribedClients
          (snd (on_change (Change ct_delete [Field K] v) st)) !! k = Some []
        → keyToSubscribedClients st !! k = Some [])
       ∧ (clientsToSubscriptions
            (snd (on_change (Change ct_delete [Field K] v) st)) !! k
            = Some []
          → clientsToSubscriptions st !! k = Some []))
  ∧ (∀ c K, filter (λ e, e ≠ c) (subscribers st K) = [] →
            keyToSubscribedClients (snd (unlink c K st)) !! K = None)
  ∧ (∀ K v, Forall (λ c, inherited (client_property_key c) = false)
              (subscribers st K) →
            keyToSubscribedClients
              (snd (on_change (Change ct_delete [Field K] v) st)) !! K
            = None)
  ∧ (∀ K m, keyToSubscribedClients st !! K = None →
            inherited K = false →
            keyToSubscribedClients
              (snd (SubscriberState.sendObjectUpdate (Some (Field K)) m st))
              !! K
            = Some []).
Proof.
  split; [|split; [|split; [|split; [|split]]]].
  - intros c K k. unfold link.
    case_decide; [done|apply link_no_new_empty].
  - intros c K k. apply unlink_no_new_empty.
  - intros K v k. apply root_deletion_no_new_empty.
  - intros c K Hlast. unfold unlink.
    rewrite unlink_keyToSubscribedClients,
      unlinkSilently_keyToSubscribedClients.
    case_decide as Hu.
    + rewrite Hlast. apply set_empty_removes.
    + by apply with_unusable in Hu as [_ ?].
  - intros K v. apply root_deletion_removes_entry.
  - intros K m Habsent HK. rewrite sendObjectUpdate_keyToSubscribedClients.
    by apply with_absent_stores_empty.
Qed.
End Pruning.

Lemma removals_prune_empty_lists_witness :
  let m := finalize_message (Some (Field "bar")) in
  (filter (λ e, e ≠ client1) (subscribers linked_once "foo") = []
   ∧ keyToSubscribedClients (snd (unlink client1 "foo" linked_once)) !! "foo"
     = None)
  ∧ (Forall (λ c, inherited (client_property_key c) = false)
       (subscribers linked_once "foo")
     ∧ keyToSubscribedClients
         (snd (on_change (H := scenario_host)
                 (Change ct_delete [Field "foo"] VUndefined) linked_once))
         !! "foo"
       = None)
  ∧ (keyToSubscribedClients linked_once !! "bar" = None
     ∧ inherited "bar" = false
     ∧ keyToSubscribedClients
         (snd (SubscriberState.sendObjectUpdate (Some (Field "bar")) m
                 linked_once)) !! "bar"
       = Some []).
Proof.
  destruct (@removals_prune_empty_lists fake_transport sejr scenario_host
              linked_once) as (_ & _ & _ & Hunlink & Hdelete & Hwith).
  split; [|split].
  - split; [reflexivity|]. apply Hunlink. reflexivity.
  - assert (Forall (λ c : @client fake_transport,
                      inherited (client_property_key c) = false)
              (subscribers linked_once "foo")) as Hnames.
    { vm_compute. repeat constructor. }
    split; [exact Hnames|]. apply Hdelete. exact Hnames.
  - split; [reflexivity|]. split; [reflexivity|].
    apply Hwith; reflexivity.
Defined.

(** C9 as stated fails: a change to a key nobody is registered for leaves an
    empty list under that key. *)
Lemma broadcast_leaves_empty_list :
  keyToSubscribedClients
    (@run fake_transport sejr scenario_host [Mutate foo_abc [set_foo]] initial)
    !! "foo"
  = Some []
  ∧ ¬ tidy (@run fake_transport sejr scenario_host
              [Mutate foo_abc [set_foo]] initial).
Proof.
  assert (keyToSubscribedClients
            (@run fake_transport sejr scenario_host
               [Mutate foo_abc [set_foo]] initial)
            !! "foo" = Some []) as Hfoo by reflexivity.
  split; [done|]. intros [Hk _]. by apply (Hk "foo" []).
Qed.

(** ** Where the two maps part ways *)

(** C2 fails on the code: [unlinkSilently] rewrites only
    [keyToSubscribedClients].  After [link] then [unlink], the client is
    gone from the clients of [foo] while [foo] is still among the client's
    subscriptions, on a transport whose handles are their own identifiers
    and on the transport of the test suite alike. *)
Theorem unlink_leaves_maps_inconsistent :
  (let st := run (H := scenario_host) [Unlink client_s "foo"] linked_once_s in
   subscribers st "foo" = []
   ∧ subscriptions st (transport_id client_s) = ["foo"]
   ∧ ¬ consistent st)
  ∧ (let st := run (H := scenario_host) [Unlink client1 "foo"] linked_once in
     subscribers st "foo" = []
     ∧ subscriptions st (transport_id client1) = ["foo"]
     ∧ ¬ consistent st).
Proof.
  split; (split; [reflexivity|]; split; [reflexivity|]); intros Hcons.
  - destruct (Hcons client_s "foo") as [_ Hback].
    assert (client_s ∈ @nil (@client string_transport)) as Hin.
    { apply Hback. apply list_elem_of_singleton. reflexivity. }
    by apply not_elem_of_nil in Hin.
  - destruct (Hcons client1 "foo") as [_ Hback].
    assert (client1 ∈ @nil (@client fake_transport)) as Hin.
    { apply Hback. apply list_elem_of_singleton. reflexivity. }
    by apply not_elem_of_nil in Hin.
Qed.

(** C5 fails on the code.  The disconnect handler looks the client up under
    the handle itself, not under [transport.id], and [unlinkSilently] never
    touches [clientsToSubscriptions].  Where a handle is its own identifier
    the client leaves the clients of [foo] but keeps [foo] among its
    subscriptions; on the transport of the test suite nothing is removed
    and the client is still handed the next update.  No message is sent by
    the disconnect itself. *)
Theorem disconnect_leaves_registrations :
  (let st := run (H := scenario_host) [Disconnect client_s] linked_once_s in
   subscribers st "foo" = []
   ∧ subscriptions st (transport_id client_s) = ["foo"]
   ∧ sent st = sent linked_once_s)
  ∧ (let st := run (H := scenario_host) [Disconnect client1] linked_once in
     subscribers st "foo" = [client1]
     ∧ subscriptions st (transport_id client1) = ["foo"]
     ∧ clientsToSubscriptions st !! "[object Object]" = Some []
     ∧ sent st = sent linked_once
     ∧ received client1
         (sent (run (H := scenario_host) [Mutate foo_def [update_foo]] st))
       = received client1 (sent st)
           ++ [{| msg_op := op_update; msg_key := Some (Field "foo");
                  msg_path := Some [];
                  msg_value := Some (serialize (VStr "def")) |}]).
Proof. repeat split; reflexivity. Qed.

(** ** The scenarios of the test suite *)

(** 'gets value on link' *)
Example test_gets_value_on_link :
  let st := run (H := scenario_host) [Mutate foo_abc [set_foo];
                 Link client1 "foo"; Link client3 "foo"] (@initial _ sejr) in
  received client1 (sent st) = [init_message "foo" (VStr "abc")]
  ∧ received client2 (sent st) = []
  ∧ received client3 (sent st) = [init_message "foo" (VStr "abc")].
Proof. repeat split; reflexivity. Qed.

(** 'value set sends update' *)
Example test_value_set_sends_update :
  let st := run (H := scenario_host) [Mutate foo_def [update_foo]] linked_once in
  received client1 (sent st)
  = [init_message "foo" (VStr "abc");
     {| msg_op := op_update; msg_key := Some (Field "foo");
        msg_path := Some []; msg_value := Some (serialize (VStr "def")) |}].
Proof. reflexivity. Qed.

(** 'field add sends update' and 'field remove sends update' *)
Example test_field_add_and_remove :
  let st :=
    run (H := scenario_host) [Mutate foo_empty [set_foo_empty]; Link client1 "foo";
         Mutate [("foo", VObj [("abc", VStr "def")])] [add_abc];
         Mutate foo_empty [remove_abc]] (@initial _ sejr) in
  received client1 (sent st)
  = [init_message "foo" (VObj []);
     {| msg_op := op_insert; msg_key := Some (Field "foo");
        msg_path := Some [Field "abc"];
        msg_value := Some (serialize (VStr "def")) |};
     {| msg_op := op_delete; msg_key := Some (Field "foo");
        msg_path := Some [Field "abc"]; msg_value := None |}].
Proof. reflexivity. Qed.

(** 'remove root sends finalize and future changes not sent' *)
Example test_remove_root_sends_finalize :
  let st :=
    run (H := scenario_host) [Mutate foo_empty [set_foo_empty];
         Link client1 "foo"; Link client3 "foo";
         Mutate [] [delete_foo];
         Mutate foo_empty [set_foo_empty]] (@initial _ sejr) in
  received client1 (sent st)
  = [init_message "foo" (VObj []); finalize_message (Some (Field "foo"))]
  ∧ received client3 (sent st)
    = [init_message "foo" (VObj []); finalize_message (Some (Field "foo"))]
  ∧ subscribers st "foo" = [].
Proof. repeat split; reflexivity. Qed.

(** 'link non-existent root is an error' *)
Example test_link_non_existent_root :
  link (H := scenario_host) client1 "foo" (@initial _ sejr) = (Throw (NoSuchKey "foo"), initial).
Proof. reflexivity. Qed.

(** 'unrepresentable elements become undefined during init' *)
Example test_unrepresentable_elements :
  let st :=
    run (H := scenario_host) [Mutate [("foo", with_functions)]
           [Change ct_insert [Field "foo"] with_functions];
         Link client1 "foo"] (@initial _ sejr) in
  (λ m, deserialize <$> msg_value m) <$> received client1 (sent st)
  = [Some (VObj [("arrayElement",
                  VArr [VStr "abc"; VUndefined; VStr "def"]);
                 ("objectField", VUndefined)])].
Proof. reflexivity. Qed.

(** * Further properties of the code *)

(** ** withPath *)

Lemma pretty_N_go_ne_l x s s' :
  s ≠ "l" +:+ s' → pretty_N_go x s ≠ "l" +:+ s'.
Proof.
  revert s. induction (N.lt_wf_0 x) as [x _ IH]; intros s Hs.
  assert (x = 0 ∨ 0 < x)%N as [->|Hpos] by lia.
  - by rewrite pretty_N_go_0.
  - rewrite pretty_N_go_step by done. apply IH.
    { by apply N.div_lt. }
    unfold pretty_N_char. by repeat case_match.
Qed.

Lemma index_name_not_length (n : N) : pretty n ≠ "length".
Proof.
  unfold pretty, pretty_N. case_decide; [discriminate|].
  by apply pretty_N_go_ne_l.
Qed.

Lemma array_index_of_index (n : N) (len : nat) :
  array_index (pretty n) len
  = if decide (N.to_nat n < len) then Some (N.to_nat n) else None.
Proof.
  unfold array_index. case_decide as Hlt.
  - assert (list_find (λ i : nat, pretty i = pretty n) (seq 0 len)
            = Some (N.to_nat n, N.to_nat n)) as ->; [|done].
    apply list_find_Some. split; [|split].
    + apply lookup_seq. split; [done|lia].
    + unfold pretty at 1, pretty_nat. by rewrite N2Nat.id.
    + intros j y Hj Hjn Hy. apply lookup_seq in Hj as [-> _].
      unfold pretty at 1, pretty_nat in Hy.
      apply (inj pretty) in Hy. lia.
  - assert (list_find (λ i : nat, pretty i = pretty n) (seq 0 len) = None)
      as ->; [|done].
    apply list_find_None, Forall_forall. intros y Hy%elem_of_seq Heq.
    unfold pretty at 1, pretty_nat in Heq. apply (inj pretty) in Heq. lia.
Qed.

(** X1: walking a path in two stages is walking it in one: [withPath] over
    [p ++ q] reads [q] from where [p] arrives, and throws where [p]
    throws. *)
Theorem withPath_app {H : Host} (d : jsval) (p q : list segment) :
  withPath d (p ++ q)
  = match withPath d p with
    | Ok cursor => withPath cursor q
    | Throw e => Throw e
    end.
Proof.
  revert d. induction p as [|seg p IH]; intros d; simpl; [done|].
  destruct (get_property d seg) as [cursor|e]; [apply IH|done].
Qed.

(** X2: a root key that the table does not hold, and that is no name the
    observable root answers to by itself or by inheritance, reads as
    [undefined], and any path that goes on below it throws a TypeError. *)
Theorem withPath_below_missing_key {H : Host} (d : table) (K : string)
    (seg : segment) (rest : list segment) :
  own_property K d = None →
  inherited K = false →
  K ∉ observable_members →
  withPath (observable d) [Field K] = Ok VUndefined
  ∧ withPath (observable d) (Field K :: seg :: rest) = Throw TypeError.
Proof.
  intros Hk Hn Hm.
  assert (get_property (observable d) (Field K) = Ok VUndefined) as Hget.
  { simpl. f_equal. by apply data_get_absent. }
  split.
  - change (withPath (observable d) [Field K])
      with (match get_property (observable d) (Field K) with
            | Ok next => withPath next []
            | Throw e => Throw e
            end).
    by rewrite Hget.
  - change (withPath (observable d) (Field K :: seg :: rest))
      with (match get_property (observable d) (Field K) with
            | Ok next => withPath next (seg :: rest)
            | Throw e => Throw e
            end).
    by rewrite Hget.
Qed.

(** X3: an index into an array reads the element at that position, and
    [undefined] past the end; it never throws. *)
Theorem withPath_array_index {H : Host} (items : list jsval) (n : N) :
  withPath (VArr items) [Index n]
  = Ok (default VUndefined (items !! N.to_nat n)).
Proof.
  simpl. rewrite decide_False by apply index_name_not_length.
  rewrite array_index_of_index. case_decide as Hlt; simpl; [done|].
  rewrite builtin_member_no_index. simpl.
  by rewrite lookup_ge_None_2 by lia.
Qed.

Lemma withPath_below_missing_key_witness :
  own_property "bar" foo_abc = None
  ∧ inherited "bar" = false
  ∧ ("bar" ∉ @observable_members scenario_host)
  ∧ withPath (H := scenario_host) (observable (H := scenario_host) foo_abc)
      [Field "bar"] = Ok VUndefined
  ∧ withPath (H := scenario_host) (observable (H := scenario_host) foo_abc)
      [Field "bar"; Field "baz"; Index 0]
    = Throw TypeError.
Proof.
  assert ("bar" ∉ @observable_members scenario_host) as Hm.
  { simpl. rewrite list_elem_of_singleton. discriminate. }
  split; [reflexivity|]. split; [reflexivity|]. split; [exact Hm|].
  apply (@withPath_below_missing_key scenario_host foo_abc "bar"
           (Field "baz") [Index 0%N]).
  - reflexivity.
  - reflexivity.
  - exact Hm.
Defined.

(** ** MapOfLists *)

Section MapOfLists_more.
Context {A : Type}.
Implicit Types (m : gmap string (list A)) (k key : string) (l : list A).

(** X4: what [set] stores under a key is what [with] reads back (for the
    empty list, under a key no object inherits), other keys keep their
    entries, and the entry exists afterwards exactly when the list is not
    empty. *)
Theorem set_then_with m key l :
  (l ≠ [] ∨ inherited key = false →
   snd (MapOfLists.with_ key (MapOfLists.set key l m)) = Array l)
  ∧ (∀ k, k ≠ key → MapOfLists.set key l m !! k = m !! k)
  ∧ (MapOfLists.set key l m !! key = None ↔ l = []).
Proof.
  split; [|split].
  - intros Hl. unfold MapOfLists.with_, MapOfLists.set. destruct l as [|x l].
    + rewrite lookup_delete_eq. destruct Hl as [? | Hn]; [done|]. by rewrite Hn.
    + by rewrite lookup_insert_eq.
  - intros k Hk. unfold MapOfLists.set.
    destruct l; by rewrite ?lookup_delete_ne, ?lookup_insert_ne.
  - unfold MapOfLists.set. destruct l.
    + by rewrite lookup_delete_eq.
    + rewrite lookup_insert_eq. split; intros; discriminate.
Qed.

(** X5: [with] never changes what any key reads, and asking twice is asking
    once: the second call returns the same list and leaves the map as the
    first call left it. *)
Theorem with_is_a_read m key :
  (∀ k, stored (fst (MapOfLists.with_ key m)) k = stored m k)
  ∧ MapOfLists.with_ key (fst (MapOfLists.with_ key m))
    = MapOfLists.with_ key m.
Proof.
  split; [intros k; apply with_stored|apply with_twice].
Qed.

(** X6: under a key whose entry is a list or can be created, [push]
    appends at the end of the list of its key and touches no other key;
    [removeAll] then leaves the key reading as empty and absent from the
    map. *)
Theorem push_then_removeAll m key (x : A) :
  usable m key →
  ∃ m1,
    MapOfLists.push key x m = (Ok (), m1)
    ∧ stored m1 key = stored m key ++ [x]
    ∧ (∀ k, k ≠ key → m1 !! k = m !! k)
    ∧ MapOfLists.removeAll key m1 !! key = None
    ∧ stored (MapOfLists.removeAll key m1) key = [].
Proof.
  intros Hu. eexists. split; [by apply push_usable|].
  split; [|split; [|split]].
  - unfold stored. by rewrite lookup_insert_eq.
  - intros k Hk. rewrite lookup_insert_ne by done. by apply with_lookup_ne.
  - apply lookup_delete_eq.
  - rewrite removeAll_stored. by rewrite decide_True.
Qed.
End MapOfLists_more.

Lemma push_then_removeAll_witness :
  usable (∅ : gmap string (list nat)) "foo"
  ∧ ∃ m1,
      MapOfLists.push "foo" 7 (∅ : gmap string (list nat)) = (Ok (), m1)
      ∧ stored m1 "foo" = stored (∅ : gmap string (list nat)) "foo" ++ [7]
      ∧ (∀ k, k ≠ "foo" → m1 !! k = (∅ : gmap string (list nat)) !! k)
      ∧ MapOfLists.removeAll "foo" m1 !! "foo" = None
      ∧ stored (MapOfLists.removeAll "foo" m1) "foo" = [].
Proof.
  assert (usable (∅ : gmap string (list nat)) "foo") as Hu.
  { right. reflexivity. }
  split; [exact Hu|].
  apply (@push_then_removeAll nat ∅ "foo" 7). exact Hu.
Defined.

(** ** SubscriberState: removal *)

Section Removal.
Context {T : Transport} {C : Codec} {H : Host}.
Implicit Types (st : state) (c : client) (K k : string).

Lemma filter_absent c (l : list client) :
  c ∉ l → filter (λ e, e ≠ c) l = l.
Proof.
  induction l as [|x l IH]; [done|].
  intros Hc. apply not_elem_of_cons in Hc as [Hne Hc].
  rewrite filter_cons, decide_True by done. by rewrite IH.
Qed.

Lemma registrations_filter_other c c' (l : list client) :
  c' ≠ c →
  registrations c' (filter (λ e, e ≠ c) l) = registrations c' l.
Proof.
  intros Hne. unfold registrations. induction l as [|x l IH]; [done|].
  rewrite !filter_cons.
  destruct (decide (x ≠ c)) as [Hx|Hx].
  - rewrite filter_cons. destruct (decide (x = c')); simpl; by rewrite IH.
  - rewrite decide_False; [done|]. intros ->. by apply Hx.
Qed.

(** X7: [unlinkSilently] is idempotent: a second call for the same client
    and key leaves the whole state as the first call left it, and under a
    key no object inherits it returns as the first call did. *)
Theorem unlinkSilently_idempotent c K st :
  snd (SubscriberState.unlinkSilently c K
         (snd (SubscriberState.unlinkSilently c K st)))
  = snd (SubscriberState.unlinkSilently c K st)
  ∧ (inherited K = false →
     SubscriberState.unlinkSilently c K
       (snd (SubscriberState.unlinkSilently c K st))
     = SubscriberState.unlinkSilently c K st).
Proof.
  assert (snd (SubscriberState.unlinkSilently c K
                 (snd (SubscriberState.unlinkSilently c K st)))
          = snd (SubscriberState.unlinkSilently c K st)) as Hstate.
  { destruct (decide (usable (keyToSubscribedClients st) K)) as [Hu|Hu].
    - rewrite (unlinkSilently_usable c K st Hu). cbn [snd].
      set (st1 := set_keyToSubscribedClients _ st).
      destruct (decide (usable (keyToSubscribedClients st1) K)) as [Hu1|Hu1].
      + rewrite (unlinkSilently_usable c K st1 Hu1). cbn [snd].
        assert (subscribers st1 K = filter (λ e, e ≠ c) (subscribers st K))
          as ->.
        { unfold subscribers at 1. subst st1. simpl.
          by rewrite set_stored, decide_True. }
        rewrite filter_twice. subst st1. unfold set_keyToSubscribedClients.
        simpl. by rewrite set_twice.
      + by rewrite (unlinkSilently_unusable c K st1 Hu1).
    - rewrite (unlinkSilently_unusable c K st Hu). cbn [snd].
      by rewrite (unlinkSilently_unusable c K st Hu). }
  split; [exact Hstate|]. intros HK.
  assert (∀ s, fst (SubscriberState.unlinkSilently c K s) = Ok ()) as Hok.
  { intros s. rewrite (unlinkSilently_usable c K s); [done|].
    by apply not_inherited_usable. }
  pose proof (Hok st) as H1.
  pose proof (Hok (snd (SubscriberState.unlinkSilently c K st))) as H2.
  destruct (SubscriberState.unlinkSilently c K
              (snd (SubscriberState.unlinkSilently c K st))) as [r2 s2].
  destruct (SubscriberState.unlinkSilently c K st) as [r1 s1].
  simpl in *. by subst.
Qed.

(** X8: [unlink] for a client that is not registered for the key, a key
    the registry can hold a list under, changes nobody's registrations and
    nobody's subscriptions; the client is still sent a [closed]. *)
Theorem unlink_of_non_member c K st :
  c ∉ subscribers st K →
  usable (keyToSubscribedClients st) K →
  fst (unlink c K st) = Ok ()
  ∧ (∀ k, subscribers (snd (unlink c K st)) k = subscribers st k)
  ∧ clientsToSubscriptions (snd (unlink c K st)) = clientsToSubscriptions st
  ∧ data (snd (unlink c K st)) = data st
  ∧ sent (snd (unlink c K st)) = sent st ++ [(c, closed_message K)].
Proof.
  intros Hc Hu. unfold unlink.
  split; [|split; [|split; [|split]]].
  - by rewrite (unlink_usable c K st Hu).
  - intros k. rewrite unlink_subscribers.
    case_decide; subst; [by apply filter_absent|done].
  - by destruct (unlink_rest c K st) as (? & _).
  - by destruct (unlink_rest c K st) as (_ & ?).
  - by rewrite unlink_sent, decide_True.
Qed.

(** X9: [unlink] takes out every registration of the client for the key and
    nothing else: the other clients of the key stay, in their order, other
    keys are not touched, every other client keeps its number of
    registrations everywhere, and no other client is sent anything. *)
Theorem unlink_spares_the_others c K st :
  subscribers (snd (unlink c K st)) K
  = filter (λ e, e ≠ c) (subscribers st K)
  ∧ (∀ k, k ≠ K → subscribers (snd (unlink c K st)) k = subscribers st k)
  ∧ (∀ c' k, c' ≠ c →
       registrations c' (subscribers (snd (unlink c K st)) k)
       = registrations c' (subscribers st k))
  ∧ (∀ c', c' ≠ c →
       received c' (sent (snd (unlink c K st))) = received c' (sent st)).
Proof.
  unfold unlink. split; [|split; [|split]].
  - by rewrite unlink_subscribers, decide_True.
  - intros k Hk. by rewrite unlink_subscribers, decide_False.
  - intros c' k Hc'. rewrite unlink_subscribers.
    case_decide; subst; [by apply registrations_filter_other|done].
  - intros c' Hc'. rewrite unlink_sent. case_decide; [|done].
    rewrite received_app.
    unfold received at 2. rewrite filter_cons. simpl.
    rewrite decide_False by done. by rewrite app_nil_r.
Qed.

Lemma unlink_each_registrations c c' (keys : list string) st k :
  c' ≠ c →
  registrations c'
    (subscribers
       (snd (SubscriberState.forEach keys
               (λ K s, SubscriberState.unlinkSilently c K s) st)) k)
  = registrations c' (subscribers st k).
Proof.
  intros Hne. revert st. induction keys as [|key keys IH]; intros st; [done|].
  simpl.
  pose proof (unlinkSilently_subscribers c key st k) as Hs.
  destruct (SubscriberState.unlinkSilently c key st) as [[[]|e] st1];
    simpl in *.
  - rewrite IH, Hs.
    case_decide; subst; [by apply registrations_filter_other|done].
  - rewrite Hs.
    case_decide; subst; [by apply registrations_filter_other|done].
Qed.

Lemma unlink_each_removes c (keys : list string) st K :
  Forall (λ key, inherited key = false) keys →
  K ∈ keys ∨ c ∉ subscribers st K →
  c ∉ subscribers
        (snd (SubscriberState.forEach keys
                (λ K s, SubscriberState.unlinkSilently c K s) st)) K.
Proof.
  intros Hnames. revert st.
  induction Hnames as [|key keys Hkey Hnames IH]; intros st Hor; simpl.
  - destruct Hor as [Hin|Hc]; [by apply not_elem_of_nil in Hin|done].
  - pose proof (unlinkSilently_subscribers c key st K) as Hs.
    rewrite (unlinkSilently_usable c key st) in *
      by (by apply not_inherited_usable).
    cbn [snd] in Hs. apply IH. rewrite Hs.
    destruct (decide (key = K)) as [->|Hne].
    + right. rewrite list_elem_of_filter. by intros [? _].
    + destruct Hor as [Hin|Hc]; [|by right].
      left. apply elem_of_cons in Hin as [->|Hin]; [done|done].
Qed.

(** X10: a disconnect hands nothing to the transport, leaves the table
    alone, never adds a registration, and never takes away a registration
    of another client. *)
Theorem disconnect_is_silent_and_local c st :
  sent (snd (SubscriberState.on_disconnect c st)) = sent st
  ∧ data (snd (SubscriberState.on_disconnect c st)) = data st
  ∧ (∀ x k, x ∈ subscribers (snd (SubscriberState.on_disconnect c st)) k →
            x ∈ subscribers st k)
  ∧ (∀ c' k, c' ≠ c →
       registrations c'
         (subscribers (snd (SubscriberState.on_disconnect c st)) k)
       = registrations c' (subscribers st k)).
Proof.
  split; [|split; [|split]].
  - by destruct (on_disconnect_rest c st) as (_ & ?).
  - by destruct (on_disconnect_rest c st) as (? & _).
  - intros x k. apply on_disconnect_subscribers.
  - intros c' k Hne.
    destruct (decide (usable (clientsToSubscriptions st)
                        (client_property_key c))) as [Hu|Hu].
    + rewrite (on_disconnect_usable c st Hu).
      by rewrite unlink_each_registrations.
    + by rewrite (on_disconnect_unusable c st Hu).
Qed.

(** X11: where a handle used as a property name reads as its
    [transport.id], every key the client is registered for is among its
    subscriptions, and none of its subscriptions is a name every object
    inherits, a disconnect removes the client from the clients of every
    key. *)
Theorem disconnect_removes_recorded_client c st :
  client_property_key c = transport_id c →
  (∀ K, c ∈ subscribers st K → K ∈ subscriptions st (transport_id c)) →
  (∀ K, K ∈ subscriptions st (transport_id c) → inherited K = false) →
  ∀ K, c ∉ subscribers (snd (SubscriberState.on_disconnect c st)) K.
Proof.
  intros Hkey Hrec Hnames K.
  destruct (decide (c ∈ subscribers st K)) as [Hin|Hout];
    [|by intros ?%on_disconnect_subscribers].
  assert (usable (clientsToSubscriptions st) (client_property_key c)) as Hu.
  { left. rewrite Hkey. apply Hrec in Hin. unfold subscriptions, stored in Hin.
    destruct (clientsToSubscriptions st !! transport_id c); [done|].
    by apply not_elem_of_nil in Hin. }
  rewrite (on_disconnect_usable c st Hu). apply unlink_each_removes.
  - apply Forall_forall. intros key Hkeyin. apply Hnames. by rewrite <- Hkey.
  - left. rewrite Hkey. by apply Hrec.
Qed.
End Removal.

Lemma unlink_of_non_member_witness :
  (client2 ∉ subscribers linked_once "foo")
  ∧ usable (keyToSubscribedClients linked_once) "foo"
  ∧ fst (unlink client2 "foo" linked_once) = Ok ()
  ∧ (∀ k, subscribers (snd (unlink client2 "foo" linked_once)) k
          = subscribers linked_once k)
  ∧ clientsToSubscriptions (snd (unlink client2 "foo" linked_once))
    = clientsToSubscriptions linked_once
  ∧ data (snd (unlink client2 "foo" linked_once)) = data linked_once
  ∧ sent (snd (unlink client2 "foo" linked_once))
    = sent linked_once ++ [(client2, closed_message "foo")].
Proof.
  assert (client2 ∉ subscribers linked_once "foo") as Hout.
  { change (client2 ∉ [client1]). intros Hin%list_elem_of_singleton.
    discriminate Hin. }
  assert (usable (keyToSubscribedClients linked_once) "foo") as Hu.
  { right. reflexivity. }
  split; [exact Hout|]. split; [exact Hu|].
  exact (@unlink_of_non_member fake_transport sejr client2 "foo" linked_once
           Hout Hu).
Defined.

Lemma disconnect_removes_recorded_client_witness :
  client_property_key client_s = transport_id client_s
  ∧ (∀ K, client_s ∈ subscribers linked_once_s K →
          K ∈ subscriptions linked_once_s (transport_id client_s))
  ∧ (∀ K, K ∈ subscriptions linked_once_s (transport_id client_s) →
          inherited K = false)
  ∧ ∀ K, client_s ∉ subscribers
                      (snd (SubscriberState.on_disconnect client_s
                              linked_once_s)) K.
Proof.
  assert (∀ K, client_s ∈ subscribers linked_once_s K →
               K ∈ subscriptions linked_once_s (transport_id client_s))
    as Hrec.
  { intros K Hin.
    assert (keyToSubscribedClients linked_once_s = {["foo" := [client_s]]})
      as Hk by reflexivity.
    unfold subscribers, stored in Hin. rewrite Hk in Hin.
    destruct (decide (K = "foo")) as [->|Hne].
    - change ("foo" ∈ ["foo"]). apply list_elem_of_here.
    - rewrite lookup_singleton_ne in Hin by done.
      by apply not_elem_of_nil in Hin. }
  assert (∀ K, K ∈ subscriptions linked_once_s (transport_id client_s) →
               inherited K = false) as Hnames.
  { intros K Hin. change (K ∈ ["foo"]) in Hin.
    apply list_elem_of_singleton in Hin. by subst K. }
  split; [reflexivity|]. split; [exact Hrec|]. split; [exact Hnames|].
  exact (@disconnect_removes_recorded_client string_transport sejr client_s
           linked_once_s eq_refl Hrec Hnames).
Defined.

(** ** The observer *)

Section Observer.
Context {T : Transport} {C : Codec} {H : Host}.
Implicit Types (st : state) (c : client) (K k : string) (ch : change).

Lemma get_property_throws (d : jsval) seg e :
  get_property d seg = Throw e → e = TypeError.
Proof.
  unfold get_property.
  destruct d; repeat case_match; intros [=]; by subst.
Qed.

Lemma withPath_throws (d : jsval) (p : list segment) e :
  withPath d p = Throw e → e = TypeError.
Proof.
  revert d. induction p as [|seg p IH]; intros d; simpl; [discriminate|].
  destruct (get_property d seg) as [cursor|e'] eqn:Hg.
  - apply IH.
  - intros [= <-]. by apply get_property_throws in Hg.
Qed.

Lemma on_change_data ch st : data (snd (on_change ch st)) = data st.
Proof.
  pose proof (on_change_effect ch st) as He.
  destruct (change_message ch (data st)); [by destruct He as (_ & ? & _)|].
  by rewrite He.
Qed.

Lemma on_change_subscribers ch st k :
  subscribers (snd (on_change ch st)) k
  = if decide (fst (on_change ch st) = Ok ()
               ∧ c_type ch = ct_delete ∧ length (c_path ch) = 1
               ∧ to_property_key (head (c_path ch)) = k)
    then [] else subscribers st k.
Proof.
  pose proof (on_change_effect ch st) as He.
  destruct (change_message ch (data st)) as [m|e] eqn:Hm.
  - destruct He as (_ & _ & ->).
    pose proof (change_message_finalize ch (data st) m Hm) as Hfin.
    unfold path_head.
    destruct (decide (_ ∧ msg_op m = op_finalize ∧ _)) as [(Hok & Hop & Hk)|Hno].
    + rewrite decide_True; [done|]. by destruct (proj1 Hfin Hop).
    + rewrite decide_False; [done|]. intros (Hok & Hd & Hl & Hk). apply Hno.
      split; [done|]. split; [|done]. apply Hfin. done.
  - rewrite He. rewrite decide_False; [done|]. by intros (? & _).
Qed.

Lemma observe_data chs st : data (snd (observe chs st)) = data st.
Proof.
  revert st. induction chs as [|ch chs IH]; intros st; simpl; [done|].
  pose proof (on_change_data ch st) as Hd.
  destruct (on_change ch st) as [[[]|e] st1]; simpl in *; [|done].
  by rewrite IH.
Qed.

Lemma plain_not_root ch :
  c_type ch = ct_insert ∨ c_type ch = ct_update
  ∨ (c_type ch = ct_delete ∧ length (c_path ch) ≠ 1) →
  ¬ (c_type ch = ct_delete ∧ length (c_path ch) = 1).
Proof. intros [Ht|[Ht|[_ Ht]]] [Hd Hl]; congruence. Qed.

(** X12: a [shuffle] or [reverse] record whose path cannot be read in the
    table makes the observer throw a TypeError: nothing is sent for that
    record, the registrations stay, and the rest of the batch is not
    looked at. *)
Theorem reorder_on_unreadable_path_throws st ch rest e :
  c_type ch = ct_shuffle ∨ c_type ch = ct_reverse →
  withPath (observable (data st)) (c_path ch) = Throw e →
  observe (ch :: rest) st = (Throw TypeError, st).
Proof.
  intros Hty Hp. pose proof (withPath_throws _ _ _ Hp) as ->.
  assert (change_message ch (data st) = Throw TypeError) as Hm.
  { unfold change_message. rewrite decide_False.
    - destruct Hty as [-> | ->]; simpl; unfold updateFromPath; by rewrite Hp.
    - intros [Hd _]. destruct Hty; congruence. }
  simpl. unfold on_change. by rewrite Hm.
Qed.

Lemma on_change_plain ch st :
  c_type ch = ct_insert ∨ c_type ch = ct_update
  ∨ (c_type ch = ct_delete ∧ length (c_path ch) ≠ 1) →
  change_message ch (data st)
    = Ok (insertStyleUpdate (opcode_of (c_type ch)) ch)
  ∧ on_change ch st
    = SubscriberState.sendObjectUpdate (path_head ch)
        (insertStyleUpdate (opcode_of (c_type ch)) ch) st.
Proof.
  intros Hch.
  assert (change_message ch (data st)
          = Ok (insertStyleUpdate (opcode_of (c_type ch)) ch)) as Hm.
  { unfold change_message. rewrite decide_False by by apply plain_not_root.
    destruct Hch as [-> | [-> | [-> _]]]; done. }
  split; [done|]. unfold on_change. rewrite Hm.
  destruct (SubscriberState.sendObjectUpdate _ _ st) as [[[]|e] st1];
    [|done].
  rewrite decide_False; [done|].
  unfold insertStyleUpdate. case_decide; simpl;
    destruct Hch as [-> | [-> | [-> _]]]; discriminate.
Qed.

(** X13: a batch of [insert], [update] and non-root [delete] records, each
    under a key the registry can hold a list under, never throws; its
    messages reach the transport record by record, each sent to the
    registrations of its [path[0]] in registration order; and no
    registration and no table entry changes. *)
Theorem plain_batch_is_delivered_in_order chs st :
  Forall (λ ch, c_type ch = ct_insert ∨ c_type ch = ct_update
                ∨ (c_type ch = ct_delete ∧ length (c_path ch) ≠ 1)) chs →
  Forall (λ ch, usable (keyToSubscribedClients st)
                  (to_property_key (head (c_path ch)))) chs →
  ∃ st',
    observe chs st = (Ok (), st')
    ∧ sent st'
      = sent st
          ++ (chs ≫= λ ch,
                broadcast (insertStyleUpdate (opcode_of (c_type ch)) ch)
                  (subscribers st (to_property_key (head (c_path ch)))))
    ∧ (∀ k, subscribers st' k = subscribers st k)
    ∧ data st' = data st.
Proof.
  intros Hplain. revert st.
  induction Hplain as [|ch chs Hch _ IH]; intros st Husable.
  - exists st. simpl. by rewrite app_nil_r.
  - apply Forall_cons in Husable as [Hu Hus].
    destruct (on_change_plain ch st Hch) as [Hm Hon].
    pose proof (sendObjectUpdate_sent (path_head ch)
                  (insertStyleUpdate (opcode_of (c_type ch)) ch) st) as Hsent.
    pose proof (sendObjectUpdate_subscribers (path_head ch)
                  (insertStyleUpdate (opcode_of (c_type ch)) ch) st) as Hsubs.
    pose proof (sendObjectUpdate_keyToSubscribedClients (path_head ch)
                  (insertStyleUpdate (opcode_of (c_type ch)) ch) st) as Hk2c.
    destruct (sendObjectUpdate_rest (path_head ch)
                (insertStyleUpdate (opcode_of (c_type ch)) ch) st)
      as [_ Hdata].
    simpl. rewrite Hon.
    rewrite (sendObjectUpdate_usable (path_head ch) _ st Hu) in *.
    cbn [snd] in *. set (st1 := foldl _ _ _) in *.
    destruct (IH st1) as (st' & Hobs & Hsent' & Hsubs' & Hdata').
    { eapply Forall_impl; [exact Hus|]. intros ch' Hch'. simpl in Hch'.
      rewrite Hk2c. by apply with_keeps_usable. }
    exists st'. split; [done|]. split; [|split].
    + rewrite Hsent', Hsent, <- app_assoc. f_equal. f_equal.
      apply list_bind_ext; [|done]. intros ch'. by rewrite Hsubs.
    + intros k. by rewrite Hsubs', Hsubs.
    + by rewrite Hdata'.
Qed.

Lemma observe_subscribers_or_empty chs st k :
  subscribers (snd (observe chs st)) k = subscribers st k
  ∨ subscribers (snd (observe chs st)) k = [].
Proof.
  revert st. induction chs as [|ch chs IH]; intros st; simpl; [by left|].
  pose proof (on_change_subscribers ch st k) as Hs.
  destruct (on_change ch st) as [[[]|e] st1]; simpl in *.
  - destruct (IH st1) as [Heq|Hnil]; [|by right].
    rewrite Heq, Hs. case_decide; [by right|by left].
  - rewrite Hs. by left.
Qed.

(** X14: the observer never writes the table and never adds a
    registration: after any batch, thrown or not, the clients of a key are
    the clients it had, or none. *)
Theorem observer_only_empties chs st :
  data (snd (observe chs st)) = data st
  ∧ ∀ k, subscribers (snd (observe chs st)) k = subscribers st k
         ∨ subscribers (snd (observe chs st)) k = [].
Proof.
  split; [apply observe_data|]. intros k.
  apply observe_subscribers_or_empty.
Qed.

(** X15: a key keeps its clients through any batch that holds no root
    deletion naming it. *)
Theorem observer_spares_other_keys chs st k :
  Forall (λ ch, ¬ (c_type ch = ct_delete ∧ length (c_path ch) = 1
                   ∧ to_property_key (head (c_path ch)) = k)) chs →
  subscribers (snd (observe chs st)) k = subscribers st k.
Proof.
  intros Hno. revert st. induction Hno as [|ch chs Hch _ IH]; intros st.
  - done.
  - simpl. pose proof (on_change_subscribers ch st k) as Hs.
    rewrite decide_False in Hs by (intros (_ & ?); by apply Hch).
    destruct (on_change ch st) as [[[]|e] st1]; simpl in *; [|done].
    by rewrite IH.
Qed.

(** X16: a batch that only touches keys nobody is registered for hands
    nothing to the transport. *)
Theorem batch_without_subscribers_sends_nothing chs st :
  Forall (λ ch, subscribers st (to_property_key (head (c_path ch))) = [])
    chs →
  sent (snd (observe chs st)) = sent st.
Proof.
  intros Hnone. revert st Hnone.
  induction chs as [|ch chs IH]; intros st Hnone; [done|].
  apply Forall_cons in Hnone as [Hch Hrest]. simpl.
  pose proof (on_change_effect ch st) as He.
  pose proof (λ k, on_change_subscribers ch st k) as Hs.
  assert (sent (snd (on_change ch st)) = sent st) as Hsent.
  { destruct (change_message ch (data st)) as [m|e].
    - destruct He as (-> & _). unfold path_head. rewrite Hch.
      apply app_nil_r.
    - by rewrite He. }
  destruct (on_change ch st) as [[[]|e] st1]; simpl in *; [|done].
  rewrite IH; [done|].
  eapply Forall_impl; [exact Hrest|]. intros ch' Hch'. simpl in Hch'.
  rewrite Hs. destruct (decide _); [done|exact Hch'].
Qed.

Lemma unregistered_on_change c ch st :
  (∀ k, c ∉ subscribers st k) →
  (∀ k, c ∉ subscribers (snd (on_change ch st)) k)
  ∧ received c (sent (snd (on_change ch st))) = received c (sent st).
Proof.
  intros Hc. split.
  - intros k. rewrite on_change_subscribers.
    case_decide; [apply not_elem_of_nil|apply Hc].
  - pose proof (on_change_effect ch st) as He.
    destruct (change_message ch (data st)) as [m|e].
    + destruct He as (-> & _).
      rewrite received_app, received_broadcast.
      rewrite registrations_absent by apply Hc. apply app_nil_r.
    + by rewrite He.
Qed.

Lemma unregistered_observe c chs st :
  (∀ k, c ∉ subscribers st k) →
  (∀ k, c ∉ subscribers (snd (observe chs st)) k)
  ∧ received c (sent (snd (observe chs st))) = received c (sent st).
Proof.
  revert st. induction chs as [|ch chs IH]; intros st Hc; simpl; [done|].
  destruct (unregistered_on_change c ch st Hc) as [Hc1 Hr1].
  destruct (on_change ch st) as [[[]|e] st1]; simpl in *; [|done].
  destruct (IH st1 Hc1) as [Hc2 Hr2]. split; [done|]. by rewrite Hr2.
Qed.

(** X17: a client that is registered nowhere and never calls [link] is
    handed nothing but the [closed] answers to its own [unlink] calls,
    whatever the other clients and the table do. *)
Theorem unlinked_client_hears_only_closed c evs st :
  (∀ k, c ∉ subscribers st k) →
  Forall (λ ev, ∀ k, ev ≠ Link c k) evs →
  ∃ more,
    received c (sent (run evs st)) = received c (sent st) ++ more
    ∧ Forall (λ m, msg_op m = op_closed) more.
Proof.
  intros Hc Hq. revert st Hc.
  induction Hq as [|ev evs Hev _ IH]; intros st Hc.
  - exists []. by rewrite app_nil_r.
  - assert ((∀ k, c ∉ subscribers (snd (step ev st)) k)
            ∧ ∃ more1,
                received c (sent (snd (step ev st)))
                = received c (sent st) ++ more1
                ∧ Forall (λ m, msg_op m = op_closed) more1)
      as (Hc1 & more1 & Hr1 & Hm1).
    { destruct ev as [c' K'|c' K'|c'|d chs].
      - change (step (Link c' K') st) with (link c' K' st).
        unfold link. case_decide; cbn [snd].
        { split; [done|]. exists []. by rewrite app_nil_r. }
        assert (c' ≠ c) as Hne by (intros ->; by apply (Hev K')).
        split.
        + intros k. rewrite link_subscribers.
          destruct (decide (K' = k ∧ _)) as [[-> _]|_]; [|done].
          rewrite elem_of_app, list_elem_of_singleton.
          intros [?|?]; [by eapply Hc|done].
        + exists []. rewrite link_sent, app_nil_r.
          case_decide; [|done]. rewrite received_app.
          unfold received at 2. rewrite filter_cons. simpl.
          rewrite decide_False by done. by rewrite app_nil_r.
      - change (step (Unlink c' K') st)
          with (SubscriberState.unlink c' K' st).
        split.
        + intros k. rewrite unlink_subscribers. case_decide; subst; [|done].
          rewrite list_elem_of_filter. intros [_ ?]. by eapply Hc.
        + rewrite unlink_sent.
          case_decide; [|exists []; by rewrite app_nil_r].
          rewrite received_app.
          unfold received at 2. rewrite filter_cons. simpl.
          destruct (decide (c' = c)).
          * exists [closed_message K']. split; [done|]. by repeat constructor.
          * exists []. by rewrite !app_nil_r.
      - change (step (Disconnect c') st)
          with (SubscriberState.on_disconnect c' st).
        split.
        + intros k Hin. apply on_disconnect_subscribers in Hin.
          by eapply Hc.
        + destruct (on_disconnect_rest c' st) as (_ & ->).
          exists []. by rewrite app_nil_r.
      - destruct (unregistered_observe c chs (set_data d st) Hc) as [H1 H2].
        split; [done|]. exists []. simpl. by rewrite H2, app_nil_r. }
    destruct (IH _ Hc1) as (more2 & Hr2 & Hm2).
    exists (more1 ++ more2). split.
    + change (run (ev :: evs) st) with (run evs (snd (step ev st))).
      rewrite Hr2, Hr1. by rewrite app_assoc.
    + by apply Forall_app.
Qed.
End Observer.

Lemma reorder_on_unreadable_path_throws_witness :
  (c_type sort_foo_bar = ct_shuffle ∨ c_type sort_foo_bar = ct_reverse)
  ∧ withPath (H := scenario_host)
      (observable (H := scenario_host) (data (set_data [] linked_once)))
      (c_path sort_foo_bar)
    = Throw TypeError
  ∧ observe (H := scenario_host) [sort_foo_bar; set_foo]
      (set_data [] linked_once)
    = (Throw TypeError, set_data [] linked_once).
Proof.
  split; [by left|]. split; [reflexivity|].
  apply (@reorder_on_unreadable_path_throws fake_transport sejr scenario_host
           (set_data [] linked_once) sort_foo_bar [set_foo] TypeError).
  - by left.
  - reflexivity.
Defined.

Lemma plain_batch_is_delivered_in_order_witness :
  Forall (λ ch, c_type ch = ct_insert ∨ c_type ch = ct_update
                ∨ (c_type ch = ct_delete ∧ length (c_path ch) ≠ 1))
    [update_foo; remove_abc]
  ∧ Forall (λ ch, usable (keyToSubscribedClients linked_once)
                    (to_property_key (head (c_path ch))))
      [update_foo; remove_abc]
  ∧ ∃ st',
      observe (H := scenario_host) [update_foo; remove_abc] linked_once
        = (Ok (), st')
      ∧ sent st'
        = sent linked_once
            ++ ([update_foo; remove_abc] ≫= λ ch,
                  broadcast (insertStyleUpdate (opcode_of (c_type ch)) ch)
                    (subscribers linked_once
                       (to_property_key (head (c_path ch)))))
      ∧ (∀ k, subscribers st' k = subscribers linked_once k)
      ∧ data st' = data linked_once.
Proof.
  assert (Forall (λ ch, c_type ch = ct_insert ∨ c_type ch = ct_update
                        ∨ (c_type ch = ct_delete ∧ length (c_path ch) ≠ 1))
            [update_foo; remove_abc]) as Hplain.
  { constructor; [right; by left|]. constructor; [|constructor].
    right. right. split; [reflexivity|]. simpl. lia. }
  assert (Forall (λ ch, usable (keyToSubscribedClients linked_once)
                          (to_property_key (head (c_path ch))))
            [update_foo; remove_abc]) as Husable.
  { constructor; [right; reflexivity|].
    constructor; [right; reflexivity|constructor]. }
  split; [exact Hplain|]. split; [exact Husable|].
  exact (@plain_batch_is_delivered_in_order fake_transport sejr scenario_host
           [update_foo; remove_abc] linked_once Hplain Husable).
Defined.

Lemma observer_spares_other_keys_witness :
  Forall (λ ch, ¬ (c_type ch = ct_delete ∧ length (c_path ch) = 1
                   ∧ to_property_key (head (c_path ch)) = "foo"))
    [update_foo; remove_abc]
  ∧ subscribers
      (snd (observe (H := scenario_host) [update_foo; remove_abc]
              linked_once)) "foo"
    = subscribers linked_once "foo".
Proof.
  assert (Forall (λ ch, ¬ (c_type ch = ct_delete ∧ length (c_path ch) = 1
                           ∧ to_property_key (head (c_path ch)) = "foo"))
            [update_foo; remove_abc]) as Hno.
  { repeat constructor; intros (Hd & Hl & _); discriminate. }
  split; [exact Hno|].
  exact (@observer_spares_other_keys fake_transport sejr scenario_host
           [update_foo; remove_abc] linked_once "foo" Hno).
Defined.

Lemma batch_without_subscribers_sends_nothing_witness :
  Forall (λ ch, subscribers (set_data foo_abc (@initial fake_transport sejr))
                  (to_property_key (head (c_path ch))) = [])
    [set_foo]
  ∧ sent (snd (observe (H := scenario_host) [set_foo]
                 (set_data foo_abc (@initial fake_transport sejr))))
    = sent (@initial fake_transport sejr).
Proof.
  assert (Forall (λ ch, subscribers
                          (set_data foo_abc (@initial fake_transport sejr))
                          (to_property_key (head (c_path ch))) = [])
            [set_foo]) as Hnone.
  { repeat constructor. }
  split; [exact Hnone|].
  exact (@batch_without_subscribers_sends_nothing fake_transport sejr
           scenario_host [set_foo] (set_data foo_abc initial) Hnone).
Defined.

Lemma unlinked_client_hears_only_closed_witness :
  let evs := [Mutate foo_def [update_foo]; Unlink client2 "foo";
              Link client3 "foo"] in
  (∀ k, client2 ∉ subscribers linked_once k)
  ∧ Forall (λ ev, ∀ k, ev ≠ Link client2 k) evs
  ∧ ∃ more,
      received client2 (sent (run (H := scenario_host) evs linked_once))
      = received client2 (sent linked_once) ++ more
      ∧ Forall (λ m, msg_op m = op_closed) more.
Proof.
  assert (∀ k, client2 ∉ subscribers linked_once k) as Hout.
  { intros k Hin.
    assert (keyToSubscribedClients linked_once = {["foo" := [client1]]})
      as Hk by reflexivity.
    unfold subscribers, stored in Hin. rewrite Hk in Hin.
    destruct (decide (k = "foo")) as [->|Hne].
    - rewrite lookup_singleton_eq in Hin. simpl in Hin.
      apply list_elem_of_singleton in Hin. discriminate Hin.
    - rewrite lookup_singleton_ne in Hin by done.
      by apply not_elem_of_nil in Hin. }
  assert (Forall (λ ev, ∀ k, ev ≠ @Link fake_transport client2 k)
            [Mutate foo_def [update_foo]; Unlink client2 "foo";
             Link client3 "foo"]) as Hq.
  { repeat constructor; intros k; discriminate. }
  split; [exact Hout|]. split; [exact Hq|].
  exact (@unlinked_client_hears_only_closed fake_transport sejr scenario_host
           client2
           [Mutate foo_def [update_foo]; Unlink client2 "foo";
            Link client3 "foo"] linked_once Hout Hq).
Defined.

(** ** The two maps together *)

Section Both_maps.
Context {T : Transport} {C : Codec} {H : Host}.
Implicit Types (st : state) (c : client) (K k n : string) (ch : change).

Lemma on_change_not_root ch st :
  ¬ (c_type ch = ct_delete ∧ length (c_path ch) = 1) →
  (∀ k, subscribers (snd (on_change ch st)) k = subscribers st k)
  ∧ (∀ n, subscriptions (snd (on_change ch st)) n = subscriptions st n).
Proof.
  intros Hno. split.
  - intros k. rewrite on_change_subscribers, decide_False; [done|].
    intros (_ & ? & ? & _). by apply Hno.
  - intros n. unfold on_change.
    destruct (change_message ch (data st)) as [m|e] eqn:Hm; [|done].
    pose proof (change_message_finalize ch (data st) m Hm) as Hfin.
    destruct (sendObjectUpdate_rest (path_head ch) m st) as (Hc2s & _).
    destruct (SubscriberState.sendObjectUpdate (path_head ch) m st)
      as [[[]|e] st1]; simpl in *.
    + rewrite decide_False by (intros Hop; by apply Hno, Hfin).
      simpl. unfold subscriptions. by rewrite Hc2s.
    + unfold subscriptions. by rewrite Hc2s.
Qed.

Lemma on_change_root_deletion ch st :
  c_type ch = ct_delete → length (c_path ch) = 1 →
  Forall (λ c, inherited (client_property_key c) = false)
    (subscribers st (to_property_key (head (c_path ch)))) →
  (∀ k, subscribers (snd (on_change ch st)) k
        = if decide (to_property_key (head (c_path ch)) = k)
          then [] else subscribers st k)
  ∧ (∀ n, subscriptions (snd (on_change ch st)) n
          = if decide (n ∈ client_property_key
                             <$> subscribers st
                                   (to_property_key (head (c_path ch))))
            then filter (subscription_differs (head (c_path ch)))
                   (subscriptions st n)
            else subscriptions st n).
Proof.
  intros Hd Hl Hnames.
  assert (change_message ch (data st) = Ok (finalize_message (path_head ch)))
    as Hm.
  { unfold change_message. by rewrite decide_True. }
  destruct (decide (usable (keyToSubscribedClients st)
                      (to_property_key (head (c_path ch))))) as [Hu|Hu].
  - pose proof (on_change_ok ch st _ Hm Hu (λ _, Hnames)) as Hok.
    split.
    + intros k. rewrite on_change_subscribers.
      destruct (decide (to_property_key (head (c_path ch)) = k)) as [Hk|Hk].
      * by rewrite decide_True.
      * rewrite decide_False; [done|]. by intros (_ & _ & _ & ?).
    + intros n. unfold on_change. rewrite Hm.
      pose proof (sendObjectUpdate_usable_after (path_head ch)
                    (finalize_message (path_head ch)) st Hu) as Hu'.
      pose proof (sendObjectUpdate_subscribers (path_head ch)
                    (finalize_message (path_head ch)) st) as Hsubs.
      destruct (sendObjectUpdate_rest (path_head ch)
                  (finalize_message (path_head ch)) st) as (Hc2s & _).
      rewrite (sendObjectUpdate_usable (path_head ch) _ st Hu) in *.
      cbn [snd] in *. set (st1 := foldl _ _ _) in *.
      rewrite decide_True by done.
      destruct (clearSubscribers_completes (path_head ch) st1) as [_ Hsub].
      { exact Hu'. }
      { unfold path_head. by rewrite Hsubs. }
      rewrite Hsub. unfold path_head. rewrite Hsubs.
      unfold subscriptions. by rewrite Hc2s.
  - assert (on_change ch st = (Throw TypeError, st)) as ->.
    { unfold on_change. rewrite Hm.
      by rewrite (sendObjectUpdate_unusable (path_head ch) _ st Hu). }
    pose proof (unusable_stored _ _ Hu) as Hnil.
    split.
    + intros k. case_decide; [by subst k|done].
    + intros n. unfold subscribers. rewrite Hnil.
      rewrite decide_False; [done|]. apply not_elem_of_nil.
Qed.

Lemma on_change_consistent ch st K0 :
  (∀ c, client_property_key c = transport_id c) →
  head (c_path ch) = Some (Field K0) →
  Forall (λ c, inherited (client_property_key c) = false)
    (subscribers st K0) →
  consistent st → consistent (snd (on_change ch st)).
Proof.
  intros Hkey Hhead Hnames Hcons c K.
  destruct (decide (c_type ch = ct_delete ∧ length (c_path ch) = 1))
    as [[Hd Hl]|Hno].
  - destruct (on_change_root_deletion ch st Hd Hl) as [Hsubs Hsubn].
    { by rewrite Hhead. }
    rewrite Hsubs, Hsubn, Hhead. simpl.
    destruct (decide (K0 = K)) as [->|Hne].
    + split; [by intros ?%not_elem_of_nil|].
      intros Hin. exfalso.
      destruct (decide (transport_id c ∈ _)) as [_|Hout].
      * apply list_elem_of_filter in Hin as [Hdiff _]. by apply Hdiff.
      * apply Hout. apply Hcons in Hin. rewrite <- Hkey.
        by apply list_elem_of_fmap_2.
    + rewrite (Hcons c K).
      destruct (decide (transport_id c ∈ _)) as [_|_]; [|done].
      rewrite list_elem_of_filter. split; [|by intros [_ ?]].
      intros Hin. split; [|done]. intros [= ->]. by apply Hne.
  - destruct (on_change_not_root ch st Hno) as [Hsubs Hsubn].
    rewrite Hsubs, Hsubn. apply Hcons.
Qed.

(** X18: on a transport where a handle used as a property name reads as its
    [transport.id] and distinct handles have distinct ids, [link] by a
    client whose id is no inherited name keeps the two maps in agreement,
    and so does the observer, when no registered client has such an id,
    over any batch whose records are rooted at a field name, root
    deletions included. *)
Theorem link_and_observer_keep_maps_consistent st :
  (∀ c, client_property_key c = transport_id c) →
  (∀ c c', transport_id c = transport_id c' → c = c') →
  consistent st →
  (∀ c K, inherited (transport_id c) = false →
          consistent (snd (link c K st)))
  ∧ (∀ chs,
       (∀ c K, c ∈ subscribers st K → inherited (transport_id c) = false) →
       Forall (λ ch, ∃ K, head (c_path ch) = Some (Field K)) chs →
       consistent (snd (observe chs st))).
Proof.
  intros Hkey Hinj Hcons. split.
  - intros c K Hid. unfold link. case_decide; cbn [snd]; [done|].
    intros c0 K0. rewrite link_subscribers, link_subscriptions.
    specialize (Hcons c0 K0).
    assert (usable (clientsToSubscriptions st) (transport_id c)) as Huc
      by by apply not_inherited_usable.
    destruct (decide (usable (keyToSubscribedClients st) K)) as [Hu|Hu].
    + destruct (decide (K = K0)) as [->|HK];
        destruct (decide (transport_id c = transport_id c0)) as [Hid0|Hid0].
      * rewrite !decide_True by done.
        apply Hinj in Hid0 as ->. split; intros _;
          apply elem_of_app; right; apply list_elem_of_here.
      * rewrite decide_True by done.
        rewrite decide_False by (by intros [? _]).
        rewrite elem_of_app, list_elem_of_singleton, Hcons.
        split; [|by left]. intros [? | ->]; [done|by destruct Hid0].
      * rewrite decide_False by (by intros [? _]).
        rewrite decide_True by done.
        apply Hinj in Hid0 as ->.
        rewrite elem_of_app, list_elem_of_singleton, Hcons.
        split; [by left|]. intros [? | ->]; [done|by destruct HK].
      * rewrite !decide_False; [done| |]; by intros [? _].
    + rewrite !decide_False; [done| |].
      * by intros (_ & ? & _).
      * by intros [_ ?].
  - intros chs Hnames Hroots. revert st Hcons Hnames.
    induction Hroots as [|ch chs [K0 Hch] _ IH]; intros st Hcons Hnames;
      [done|].
    simpl.
    assert (consistent (snd (on_change ch st))) as H1.
    { apply (on_change_consistent ch st K0 Hkey Hch); [|done].
      apply Forall_forall. intros c Hc. rewrite Hkey. by eapply Hnames. }
    assert (∀ c K, c ∈ subscribers (snd (on_change ch st)) K →
                   inherited (transport_id c) = false) as H2.
    { intros c K. rewrite on_change_subscribers.
      case_decide; [by intros ?%not_elem_of_nil|apply Hnames]. }
    destruct (on_change ch st) as [[[]|e] st1]; simpl in *; [|done].
    by apply IH.
Qed.

(** X19: after a root deletion of [K] and whatever the rest of the batch
    and later batches do, a [link(c, K)] on the redefined key starts from
    nothing: [c] is the only client of [K], registered once, however many
    registrations there were before the deletion.  Here [K], the id of
    [c] and the handles registered for [K] are no inherited names. *)
Theorem link_after_root_deletion_is_fresh st c K v chs d' chs' :
  data_get d' K ≠ VUndefined →
  inherited K = false →
  inherited (transport_id c) = false →
  Forall (λ c', inherited (client_property_key c') = false)
    (subscribers st K) →
  let st1 := snd (observe (Change ct_delete [Field K] v :: chs) st) in
  let st2 := snd (observe chs' (set_data d' st1)) in
  ∃ st3,
    link c K st2 = (Ok (), st3)
    ∧ subscribers st3 K = [c]
    ∧ registrations c (subscribers st3 K) = 1.
Proof.
  intros Hd HK Hid Hnames st1 st2.
  assert (subscribers st1 K = []) as H1.
  { destruct (on_change_root_deletion (Change ct_delete [Field K] v) st)
      as [Hs _]; [done|done|done|].
    specialize (Hs K). rewrite decide_True in Hs by done.
    unfold st1. remember (Change ct_delete [Field K] v) as ch. simpl.
    destruct (on_change ch st) as [[[]|e] st0]; simpl in *; [|done].
    destruct (observe_subscribers_or_empty chs st0 K) as [-> | ->]; done. }
  assert (subscribers st2 K = []) as H2.
  { unfold st2.
    destruct (observe_subscribers_or_empty chs' (set_data d' st1) K)
      as [-> | ->]; done. }
  assert (data st2 = d') as Hdata.
  { unfold st2. by rewrite observe_data. }
  destruct (link_usable c K st2) as (st3 & E & _ & _ & Hsubs & _).
  { by apply not_inherited_usable. }
  { by apply not_inherited_usable. }
  exists st3. split.
  - unfold link. rewrite Hdata, decide_False; [done|].
    by rewrite typeof_undefined.
  - rewrite Hsubs, decide_True, H2 by done. simpl.
    split; [done|]. apply registrations_self.
Qed.

(** X20: [link] is local: it changes the clients of no other key, adds no
    registration of any other client, and sends nothing to any other
    client. *)
Theorem link_is_local st c K :
  (∀ k, k ≠ K →
        subscribers (snd (link c K st)) k = subscribers st k)
  ∧ (∀ c' k, c' ≠ c →
       registrations c' (subscribers (snd (link c K st)) k)
       = registrations c' (subscribers st k))
  ∧ (∀ c', c' ≠ c →
       received c' (sent (snd (link c K st))) = received c' (sent st))
  ∧ data (snd (link c K st)) = data st.
Proof.
  unfold link. case_decide; cbn [snd]; [done|].
  split; [|split; [|split]].
  - intros k Hk. rewrite link_subscribers, decide_False; [done|].
    by intros [? _].
  - intros c' k Hc'. rewrite link_subscribers.
    destruct (decide (K = k ∧ _)) as [[<- _]|_]; [|done].
    rewrite registrations_app. unfold registrations at 2.
    rewrite filter_cons, decide_False by done. simpl. lia.
  - intros c' Hc'. rewrite link_sent. case_decide; [|done].
    rewrite received_app.
    unfold received at 2. rewrite filter_cons. simpl.
    rewrite decide_False by done. by rewrite app_nil_r.
  - apply link_data.
Qed.

(** X21: [link] then [unlink] by a client that was not registered for a
    defined key, neither the key nor the client's id being an inherited
    name, puts the clients of every key back as they were; the client
    has been sent an [init] and then a [closed]. *)
Theorem link_then_unlink st c K :
  data_get (data st) K ≠ VUndefined →
  c ∉ subscribers st K →
  inherited K = false →
  inherited (transport_id c) = false →
  let st2 := run [Link c K; Unlink c K] st in
  (∀ k, subscribers st2 k = subscribers st k)
  ∧ sent st2
    = sent st ++ [(c, init_message K (data_get (data st) K));
                  (c, closed_message K)]
  ∧ data st2 = data st.
Proof.
  intros Hd Hc HK Hid st2.
  assert (usable (keyToSubscribedClients st) K) as Hu
    by by apply not_inherited_usable.
  assert (usable (clientsToSubscriptions st) (transport_id c)) as Huc
    by by apply not_inherited_usable.
  assert (st2 = snd (SubscriberState.unlink c K
                       (snd (SubscriberState.link c K st))))
    as ->.
  { unfold st2, run. simpl. unfold link.
    rewrite decide_False; [done|]. by rewrite typeof_undefined. }
  split; [|split].
  - intros k. rewrite unlink_subscribers, !link_subscribers.
    rewrite (decide_True (P := K = K ∧ _)) by done.
    destruct (decide (K = k)) as [<-|Hne].
    + rewrite filter_app, filter_absent by done.
      rewrite filter_cons, decide_False by (intros Hne; by apply Hne).
      apply app_nil_r.
    + rewrite decide_False; [done|]. by intros [? _].
  - rewrite unlink_sent, link_sent.
    rewrite decide_True by (by apply not_inherited_usable).
    rewrite decide_True by done. by rewrite <- app_assoc.
  - destruct (unlink_rest c K (snd (SubscriberState.link c K st)))
      as (_ & ->). apply link_data.
Qed.
End Both_maps.

Lemma link_and_observer_keep_maps_consistent_witness :
  (∀ c : @client string_transport, client_property_key c = transport_id c)
  ∧ (∀ c c' : @client string_transport,
       transport_id c = transport_id c' → c = c')
  ∧ consistent linked_once_s
  ∧ (inherited (transport_id client_s) = false
     ∧ consistent (snd (link (H := scenario_host) client_s "foo"
                          linked_once_s)))
  ∧ ((∀ c K, c ∈ subscribers linked_once_s K →
             inherited (transport_id c) = false)
     ∧ ∀ chs,
         Forall (λ ch, ∃ K, head (c_path ch) = Some (Field K)) chs →
         consistent (snd (observe (H := scenario_host) chs linked_once_s))).
Proof.
  assert (keyToSubscribedClients linked_once_s = {["foo" := [client_s]]})
    as Hk by reflexivity.
  assert (clientsToSubscriptions linked_once_s = {["client1" := ["foo"]]})
    as Hc by reflexivity.
  assert (consistent linked_once_s) as Hcons.
  { intros c K.
    unfold subscribers, subscriptions, stored. rewrite Hk, Hc.
    change (transport_id c) with c.
    destruct (decide (K = "foo")) as [->|HK];
      destruct (decide (c = "client1")) as [->|Hcl];
      rewrite ?lookup_singleton_eq, ?lookup_singleton_ne by done; simpl.
    - split; intros _; apply list_elem_of_here.
    - split; [|by intros ?%not_elem_of_nil].
      intros Hin%list_elem_of_singleton. by destruct Hcl.
    - split; [by intros ?%not_elem_of_nil|].
      intros Hin%list_elem_of_singleton. by destruct HK.
    - split; by intros ?%not_elem_of_nil. }
  assert (∀ (c : @client string_transport) K,
            c ∈ subscribers linked_once_s K →
            inherited (transport_id c) = false) as Hnames.
  { intros c K. unfold subscribers, stored. rewrite Hk.
    destruct (decide (K = "foo")) as [->|HK];
      rewrite ?lookup_singleton_eq, ?lookup_singleton_ne by done; simpl.
    - intros Hin%list_elem_of_singleton. by subst c.
    - by intros ?%not_elem_of_nil. }
  destruct (@link_and_observer_keep_maps_consistent string_transport sejr
              scenario_host linked_once_s (λ c, eq_refl) (λ c c' Hid, Hid)
              Hcons) as [Hlink Hobserve].
  split; [reflexivity|]. split; [by intros c c' Hid|]. split; [exact Hcons|].
  split.
  - split; [reflexivity|]. apply Hlink. reflexivity.
  - split; [exact Hnames|]. intros chs. by apply Hobserve.
Defined.

Lemma link_after_root_deletion_is_fresh_witness :
  data_get (H := scenario_host) foo_def "foo" ≠ VUndefined
  ∧ inherited "foo" = false
  ∧ inherited (transport_id client1) = false
  ∧ Forall (λ c', inherited (client_property_key c') = false)
      (subscribers (set_data [] linked_twice) "foo")
  ∧ let st1 := snd (observe (H := scenario_host) [delete_foo]
                      (set_data [] linked_twice)) in
    let st2 := snd (observe (H := scenario_host) [set_foo]
                      (set_data foo_def st1)) in
    ∃ st3,
      link (H := scenario_host) client1 "foo" st2 = (Ok (), st3)
      ∧ subscribers st3 "foo" = [client1]
      ∧ registrations client1 (subscribers st3 "foo") = 1.
Proof.
  assert (Forall (λ c' : @client fake_transport,
                    inherited (client_property_key c') = false)
            (subscribers (set_data [] linked_twice) "foo")) as Hnames.
  { vm_compute. repeat constructor. }
  split; [discriminate|]. split; [reflexivity|]. split; [reflexivity|].
  split; [exact Hnames|].
  apply (@link_after_root_deletion_is_fresh fake_transport sejr scenario_host
           (set_data [] linked_twice) client1 "foo" VUndefined [] foo_def
           [set_foo]).
  - discriminate.
  - reflexivity.
  - reflexivity.
  - exact Hnames.
Defined.

Lemma link_then_unlink_witness :
  data_get (H := scenario_host) (data linked_once) "foo" ≠ VUndefined
  ∧ (client2 ∉ subscribers linked_once "foo")
  ∧ inherited "foo" = false
  ∧ inherited (transport_id client2) = false
  ∧ let st2 := run (H := scenario_host)
                 [Link client2 "foo"; Unlink client2 "foo"] linked_once in
    (∀ k, subscribers st2 k = subscribers linked_once k)
    ∧ sent st2
      = sent linked_once ++ [(client2, init_message "foo" (VStr "abc"));
                             (client2, closed_message "foo")]
    ∧ data st2 = data linked_once.
Proof.
  assert (client2 ∉ subscribers linked_once "foo") as Hout.
  { change (client2 ∉ [client1]). intros Hin%list_elem_of_singleton.
    discriminate Hin. }
  split; [discriminate|]. split; [exact Hout|].
  split; [reflexivity|]. split; [reflexivity|].
  apply (@link_then_unlink fake_transport sejr scenario_host linked_once
           client2 "foo").
  - discriminate.
  - exact Hout.
  - reflexivity.
  - reflexivity.
Defined.

Section Fan_out.
Context {T : Transport} {C : Codec} {H : Host}.

(** X22: one change record whose message can be built hands that message to
    every client once per registration of the client for [path[0]], and
    to nobody else. *)
Theorem change_reaches_each_registration (ch : change) (st : state)
    (m : message) :
  change_message ch (data st) = Ok m →
  ∀ c, received c (sent (snd (on_change ch st)))
       = received c (sent st)
           ++ replicate
                (registrations c
                   (subscribers st (to_property_key (head (c_path ch)))))
                m.
Proof.
  intros Hm c. pose proof (on_change_effect ch st) as He.
  rewrite Hm in He. destruct He as (-> & _).
  by rewrite received_app, received_broadcast.
Qed.
End Fan_out.

Lemma change_reaches_each_registration_witness :
  change_message (H := scenario_host) (C := sejr) update_foo
    (data (set_data foo_def linked_twice))
  = Ok (insertStyleUpdate op_update update_foo)
  ∧ ∀ c, received c (sent (snd (on_change (H := scenario_host) update_foo
                                  (set_data foo_def linked_twice))))
         = received c (sent (set_data foo_def linked_twice))
             ++ replicate
                  (registrations c
                     (subscribers (set_data foo_def linked_twice) "foo"))
                  (insertStyleUpdate op_update update_foo).
Proof.
  split; [reflexivity|].
  apply (@change_reaches_each_registration fake_transport sejr scenario_host
           update_foo (set_data foo_def linked_twice)
           (insertStyleUpdate op_update update_foo)).
  reflexivity.
Defined.
